(** * Statistics core of the Voynich decoder: a shallow embedding

    The development follows the Python sources

    - [src/analytics/stats.py]            (module [Stats])
    - [src/analysis/report_metrics.py]    (module [ReportMetrics])
    - [src/compare/compare_corpora.py]    (module [CompareCorpora])
    - [src/compare/compare_languages.py]  (module [CompareLanguages])
    - [src/analysis/temporal_evolution.py] (module [TemporalEvolution])

    Conventions.
    - A Python [dict] / [Counter] is an association list in insertion order;
      the interpreter keeps its keys pairwise distinct ([wf_dict]).
    - Python [int] is [Z].  Python [float] is read in two ways.  The modules
      named after the sources read it as a real number of [R]: the value
      each formula denotes, without rounding, overflow or underflow.
      Module [Binary64] reads the divergence of compare_corpora.py on the
      IEEE 754 binary64 numbers the interpreter computes with; it decides
      where a statement about exact values stops being one about a run.
    - A call that can raise returns an [option] or a [result]; [None] and
      [Raise] stand for the exception leaving the function. *)

From Stdlib Require Import Reals Lra Lia List String Ascii ZArith Bool.
From Stdlib Require Import Permutation Sorted QArith.
From Stdlib Require Import Floats.
Import ListNotations.

Set Warnings "-register-all".
Set Warnings "-notation-overridden".
Set Warnings "-ambiguous-paths".

Open Scope string_scope.
Open Scope list_scope.
Open Scope Z_scope.
Open Scope R_scope.

(** ** Python values shared by the modules *)

Module Py.

Definition dict (V : Type) : Type := list (string * V).

Definition keys {V} (d : dict V) : list string := map fst d.
Definition values {V} (d : dict V) : list V := map snd d.

(** [d.get(k, dflt)] *)
Fixpoint get {V} (d : dict V) (k : string) (dflt : V) : V :=
  match d with
  | [] => dflt
  | (k', v) :: d' => if String.eqb k k' then v else get d' k dflt
  end.

(** The invariant of every Python dictionary: one entry per key. *)
Definition wf_dict {V} (d : dict V) : Prop := NoDup (keys d).

(** [set(xs)], kept as a duplicate-free list. *)
Definition set_of (xs : list string) : list string := nodup string_dec xs.

Definition mem (k : string) (s : list string) : bool :=
  if in_dec string_dec k s then true else false.

(** [a | b], [a & b], [a - b] on sets *)
Definition union (a b : list string) : list string := nodup string_dec (a ++ b).
Definition inter (a b : list string) : list string := filter (fun k => mem k b) a.
Definition diff (a b : list string) : list string := filter (fun k => negb (mem k b)) a.

(** [sum(xs)] over floats and over ints *)
Definition Rsum (xs : list R) : R := fold_right Rplus 0 xs.
Definition Zsum (xs : list Z) : Z := fold_right Z.add 0%Z xs.

(** [math.log2(x)]: raises [ValueError] unless [0 < x]. *)
Definition log2 (x : R) : option R :=
  if Rlt_dec 0 x then Some (ln x / ln 2) else None.

(** [Counter(tokens)]: counts in order of first occurrence. *)
Fixpoint incr (c : dict Z) (k : string) : dict Z :=
  match c with
  | [] => [(k, 1%Z)]
  | (k', v) :: c' =>
      if String.eqb k k' then (k', (v + 1)%Z) :: c' else (k', v) :: incr c' k
  end.

Definition Counter (tokens : list string) : dict Z :=
  fold_left incr tokens [].

(** Python slice [l[lo:hi]] for arbitrary integer bounds: a negative bound
    counts from the end, and both bounds are clipped to [0, len(l)]. *)
Definition clip (len i : Z) : Z :=
  if (i <? 0)%Z then Z.max 0 (len + i) else Z.min i len.

Definition slice {A} (l : list A) (lo hi : Z) : list A :=
  let len := Z.of_nat (List.length l) in
  let lo' := clip len lo in
  let hi' := clip len hi in
  firstn (Z.to_nat (hi' - lo')) (skipn (Z.to_nat lo') l).

(** [range(n)] *)
Definition range (n : Z) : list Z := map Z.of_nat (seq 0 (Z.to_nat n)).

(** [sep.join(xs)] *)
Fixpoint join (sep : string) (xs : list string) : string :=
  match xs with
  | [] => EmptyString
  | [x] => x
  | x :: rest => (x ++ sep ++ join sep rest)%string
  end.

(** [Counter.most_common(n)]: the [n] entries of highest count, highest
    first; entries of equal count stay in insertion order.  A non-positive
    [n] gives the empty list. *)
Fixpoint insert_count (x : string * Z) (l : list (string * Z))
  : list (string * Z) :=
  match l with
  | [] => [x]
  | y :: l' =>
      if (snd y <=? snd x)%Z then x :: l else y :: insert_count x l'
  end.

Definition by_count (c : dict Z) : list (string * Z) :=
  fold_right insert_count [] c.

Definition most_common (c : dict Z) (n : Z) : list (string * Z) :=
  firstn (Z.to_nat n) (by_count c).

(** [c.update(keys)]: count further keys into an existing counter. *)
Definition update (c : dict Z) (ks : list string) : dict Z :=
  fold_left incr ks c.

(** [d.setdefault(k, v)] *)
Definition setdefault {V} (d : dict V) (k : string) (v : V) : dict V :=
  if mem k (keys d) then d else d ++ [(k, v)].

End Py.

Import Py.

(** ** Records read from a JSONL stream *)

Module Json.

(** The values [json.loads] can return. *)
Inductive json : Type :=
| JNull
| JBool (b : bool)
| JNum (z : Z)
| JStr (s : string)
| JList (l : list json)
| JDict (d : list (string * json)).

Inductive exn : Set :=
| JSONDecodeError
| AttributeError
| TypeError
| FileNotFoundError.

Inductive result (A : Type) : Type :=
| Ok (a : A)
| Raise (e : exn).
Arguments Ok {A} a.
Arguments Raise {A} e.

Definition bind {A B} (r : result A) (f : A -> result B) : result B :=
  match r with
  | Ok a => f a
  | Raise e => Raise e
  end.

(** Python truth value of a decoded JSON value. *)
Definition truthy (v : json) : bool :=
  match v with
  | JNull => false
  | JBool b => b
  | JNum z => negb (z =? 0)%Z
  | JStr s => negb (String.eqb s EmptyString)
  | JList l => match l with [] => false | _ => true end
  | JDict d => match d with [] => false | _ => true end
  end.

(** [obj.get(key, dflt)]: only a dict has the method. *)
Definition obj_get (obj : json) (key : string) (dflt : json) : result json :=
  match obj with
  | JDict d => Ok (get d key dflt)
  | _ => Raise AttributeError
  end.

(** The items [' '.join] accepts must all be strings. *)
Fixpoint all_strings (l : list json) : option (list string) :=
  match l with
  | [] => Some []
  | JStr s :: l' => option_map (cons s) (all_strings l')
  | _ :: _ => None
  end.

Definition chars (s : string) : list string :=
  map (fun c => String c EmptyString) (list_ascii_of_string s).

(** [' '.join(v)] for a decoded value [v]: a list is joined item by item,
    a string character by character, a dict key by key; anything else is
    not iterable. *)
Definition join_tokens (v : json) : result string :=
  match v with
  | JList l =>
      match all_strings l with
      | Some ss => Ok (join " " ss)
      | None => Raise TypeError
      end
  | JStr s => Ok (join " " (chars s))
  | JDict d => Ok (join " " (keys d))
  | _ => Raise TypeError
  end.

(** [obj.get('text') or ' '.join(obj.get('tokens', []))] *)
Definition text_of (obj : json) : result json :=
  bind (obj_get obj "text" JNull) (fun t =>
    if truthy t then Ok t
    else bind (obj_get obj "tokens" (JList [])) (fun toks =>
           bind (join_tokens toks) (fun s => Ok (JStr s)))).

(** [str.strip()] on ASCII text. *)
Definition is_space (c : ascii) : bool :=
  let n := nat_of_ascii c in
  ((9 <=? n) && (n <=? 13) || (28 <=? n) && (n <=? 32))%nat.

Fixpoint lstrip_chars (l : list ascii) : list ascii :=
  match l with
  | c :: l' => if is_space c then lstrip_chars l' else l
  | [] => []
  end.

Definition strip (s : string) : string :=
  string_of_list_ascii
    (rev (lstrip_chars (rev (lstrip_chars (list_ascii_of_string s))))).

Section Readers.

(** [json.loads]; [None] is a [JSONDecodeError]. *)
Variable json_loads : string -> option json.

(** report_metrics.py, [read_lines_from_jsonl]: the body of the loop for
    one line, appending to [lines]. *)
Definition rm_line (lines : list json) (ln : string) : result (list json) :=
  let ln := strip ln in
  if String.eqb ln EmptyString then Ok lines
  else
    match json_loads ln with
    | None => Ok lines                     (* except Exception: continue *)
    | Some obj =>
        bind (text_of obj) (fun text =>
          if truthy text then Ok (lines ++ [text]) else Ok lines)
    end.

(** compare_corpora.py, [read_voynich_lines]: the same loop body without
    the [try]. *)
Definition cc_line (lines : list json) (ln : string) : result (list json) :=
  if String.eqb (strip ln) EmptyString then Ok lines
  else
    match json_loads ln with
    | None => Raise JSONDecodeError
    | Some obj =>
        bind (text_of obj) (fun text =>
          if truthy text then Ok (lines ++ [text]) else Ok lines)
    end.

Definition run_loop (body : list json -> string -> result (list json))
           (fh : list string) : result (list json) :=
  fold_left (fun acc ln => bind acc (fun lines => body lines ln)) fh (Ok []).

(** The file is [None] when the path does not exist. *)
Definition read_lines_from_jsonl (file : option (list string))
  : result (list json) :=
  match file with
  | None => Ok []
  | Some fh => run_loop rm_line fh
  end.

Definition read_voynich_lines (file : option (list string))
  : result (list json) :=
  match file with
  | None => Raise FileNotFoundError
  | Some fh => run_loop cc_line fh
  end.

End Readers.

End Json.

(** ** src/utils/experiment_logger.py *)

Module ExperimentLogger.

Import Json.

(** Truth value of an optional string argument ([None] or empty is
    false). *)
Definition given (s : option string) : bool :=
  match s with
  | None => false
  | Some s => negb (String.eqb s EmptyString)
  end.

Section EnrichRecord.

(** [datetime.now(timezone.utc).isoformat()] and [uuid.uuid4().hex], read
    from the environment. *)
Variable now : string.
Variable fresh_id : string.

Definition make_run_id : string := fresh_id.

Definition enrich_record (record : option (dict json))
           (run_id input_file model : option string)
           (params : option (dict json)) : dict json :=
  let out := match record with Some r => r | None => [] end in
  let out := setdefault out "timestamp" (JStr now) in
  let out :=
    setdefault out "run_id"
      (JStr (match run_id with
             | Some r => if String.eqb r EmptyString then make_run_id else r
             | None => make_run_id
             end)) in
  let out :=
    match input_file with
    | Some f => if given input_file then setdefault out "input_file" (JStr f) else out
    | None => out
    end in
  let out :=
    match model with
    | Some m => if given model then setdefault out "model" (JStr m) else out
    | None => out
    end in
  match params with
  | Some ((_ :: _) as ps) => setdefault out "params" (JDict ps)
  | _ => out
  end.

End EnrichRecord.

End ExperimentLogger.

(** ** The tokenizer shared by stats.py, report_metrics.py and
    compare_corpora.py *)

Module Tokenizer.

(** Text is ASCII: there the class [a-z0-9] under [re.IGNORECASE] holds the
    letters and digits, and [str.lower()] moves the capitals only. *)
Definition in_range (lo hi : nat) (c : ascii) : bool :=
  let n := nat_of_ascii c in ((lo <=? n) && (n <=? hi))%nat.

Definition is_upper (c : ascii) : bool := in_range 65 90 c.
Definition is_lower (c : ascii) : bool := in_range 97 122 c.
Definition is_digit (c : ascii) : bool := in_range 48 57 c.

(** A character of the class [a-z0-9] under [re.IGNORECASE]. *)
Definition is_token_char (c : ascii) : bool :=
  is_lower c || is_upper c || is_digit c.

(** [str.lower()] on ASCII text. *)
Definition lower_char (c : ascii) : ascii :=
  if is_upper c then ascii_of_nat (nat_of_ascii c + 32) else c.

Definition lower (s : string) : string :=
  string_of_list_ascii (map lower_char (list_ascii_of_string s)).

(** The run [cur] read so far, emitted as a match when it is not empty. *)
Definition flush (cur : list ascii) : list string :=
  match cur with
  | [] => []
  | _ :: _ => [string_of_list_ascii cur]
  end.

(** [TOKEN_RE.findall]: the maximal runs of token characters, left to
    right; [cur] is the run being read. *)
Fixpoint scan (cur : list ascii) (l : list ascii) : list string :=
  match l with
  | [] => flush cur
  | c :: l' =>
      if is_token_char c then scan (cur ++ [c]) l'
      else flush cur ++ scan [] l'
  end.

Definition findall (s : string) : list string :=
  scan [] (list_ascii_of_string s).

Definition tokenize (text : string) : list string :=
  if String.eqb text EmptyString then [] else findall (lower text).

End Tokenizer.

(** ** src/compare/compare_corpora.py *)

Module CompareCorpora.

(** [ngrams]: this copy has no guard on [n]. *)
Definition ngrams (tokens : list string) (n : Z) : list (list string) :=
  map (fun i => slice tokens i (i + n))
      (range (Z.of_nat (List.length tokens) - n + 1)).

(** [counter_to_prob], [js_divergence] and its inner [kl] on exact values:
    each [float] is the real number it stands for, and [/], [+], [*] and
    [math.log2] are the exact operations.  What a run computes, with every
    operation rounded, is [Binary64.counter_to_prob], [Binary64.mixture],
    [Binary64.kl] and [Binary64.js_divergence] below. *)
Definition counter_to_prob (counter : dict Z) : dict R :=
  let total := IZR (Zsum (values counter)) in
  if Req_dec_T total 0 then []
  else map (fun kv => (fst kv, IZR (snd kv) / total)) counter.

(** The mixture [m] built by the first loop of [js_divergence]; the order
    in which the key set is walked does not show in any lookup. *)
Definition mixture (p q : dict R) : dict R :=
  map (fun k => (k, 0.5 * (get p k 0 + get q k 0)))
      (union (keys p) (keys q)).

(** The three arms of the loop body of the inner function [kl]. *)
Inductive kl_branch : Set :=
| SkipZero      (* v == 0: continue *)
| EpsilonGuard  (* bv == 0: divide by 1e-12 *)
| Ratio.        (* divide by bv *)

Definition kl_branch_of (b : dict R) (kv : string * R) : kl_branch :=
  let '(k, v) := kv in
  if Req_dec_T v 0 then SkipZero
  else if Req_dec_T (get b k 0) 0 then EpsilonGuard
  else Ratio.

Definition kl_step (b : dict R) (s : option R) (kv : string * R) : option R :=
  match s with
  | None => None
  | Some s =>
      let '(k, v) := kv in
      match kl_branch_of b kv with
      | SkipZero => Some s
      | EpsilonGuard =>
          option_map (fun l => s + v * l) (log2 (v / 1e-12))
      | Ratio =>
          option_map (fun l => s + v * l) (log2 (v / get b k 0))
      end
  end.

Definition kl (a b : dict R) : option R := fold_left (kl_step b) a (Some 0).

Definition js_divergence (p q : dict R) : option R :=
  let m := mixture p q in
  match kl p m, kl q m with
  | Some x, Some y => Some (0.5 * (x + y))
  | _, _ => None
  end.

(** [read_voynich_lines], over a decoder [json_loads]. *)
Definition read_voynich_lines := Json.read_voynich_lines.

(** One reference corpus as [compare] sees it: the stem of its file, the
    tokens of its text, and what the optional embedding collaborator
    answered for it. *)
Record corpus_file : Type := {
  stem : string;
  c_tokens : list string;
  emb_sim : option R
}.

Record detail : Type := {
  corpus : string;
  jsd_unigram : R;
  jsd_bigram : R;
  embedding_similarity : option R
}.

(** [Counter(' '.join(ng) for ng in ngrams(tokens, 2))] *)
Definition bigram_counter (tokens : list string) : dict Z :=
  Counter (map (join " ") (ngrams tokens 2)).

(** The body of the loop over the corpus files. *)
Definition compare_one (p_v_uni p_v_bi : dict R) (c : corpus_file)
  : option detail :=
  let p_c_uni := counter_to_prob (Counter (c_tokens c)) in
  let p_c_bi := counter_to_prob (bigram_counter (c_tokens c)) in
  match js_divergence p_v_uni p_c_uni, js_divergence p_v_bi p_c_bi with
  | Some jsd_uni, Some jsd_bi =>
      Some {| corpus := stem c; jsd_unigram := jsd_uni;
              jsd_bigram := jsd_bi; embedding_similarity := emb_sim c |}
  | _, _ => None
  end.

Fixpoint collect_results (p_v_uni p_v_bi : dict R) (files : list corpus_file)
  : option (list detail) :=
  match files with
  | [] => Some []
  | c :: rest =>
      match compare_one p_v_uni p_v_bi c with
      | None => None
      | Some d => option_map (cons d) (collect_results p_v_uni p_v_bi rest)
      end
  end.

(** [sorted(results, key=...)]: stable, ascending in the key. *)
Fixpoint insert_by {A} (key : A -> R) (x : A) (l : list A) : list A :=
  match l with
  | [] => [x]
  | y :: l' =>
      if Rle_dec (key x) (key y) then x :: l else y :: insert_by key x l'
  end.

Definition sorted_by {A} (key : A -> R) (l : list A) : list A :=
  fold_right (insert_by key) [] l.

(** What [compare] writes: the rows of summary.csv and the rows of the
    table in summary.md. *)
Record outputs : Type := {
  csv_rows : list detail;
  md_rows : list detail
}.

(** [compare], from the token stream of the manuscript and the corpus
    files in the order [sorted(corpora_dir.iterdir())] lists them. *)
Definition compare (v_tokens : list string) (files : list corpus_file)
  : option outputs :=
  let p_v_uni := counter_to_prob (Counter v_tokens) in
  let p_v_bi := counter_to_prob (bigram_counter v_tokens) in
  match collect_results p_v_uni p_v_bi files with
  | None => None
  | Some results =>
      Some {| csv_rows := results;
              md_rows := sorted_by jsd_unigram results |}
  end.

Definition tokenize := Tokenizer.tokenize.

(** [top_items] *)
Definition top_items (counter : dict Z) (n : Z) : list (string * Z) :=
  most_common counter n.

End CompareCorpora.

(** ** compare_corpora.py on binary64

    [counter_to_prob] and [js_divergence] once more, with every sum,
    product and quotient rounded to the nearest binary64 number as the
    interpreter does. *)

Module Binary64.

(** [float(z)] of a Python [int]: the nearest binary64 number. *)
Definition of_int (z : Z) : float :=
  SF2Prim (SpecFloat.binary_normalize FloatOps.prec FloatOps.emax z 0 false).

(** The literal [1e-12]. *)
Definition epsilon : float := 0x1.19799812dea11p-40%float.

(** [counter_to_prob] *)
Definition counter_to_prob (counter : dict Z) : dict float :=
  let total := of_int (Zsum (values counter)) in
  if (total =? 0)%float then []
  else map (fun kv => (fst kv, (of_int (snd kv) / total)%float)) counter.

(** The mixture [m] built by the first loop of [js_divergence]. *)
Definition mixture (p q : dict float) : dict float :=
  map (fun k => (k, (0.5 * (get p k 0 + get q k 0))%float))
      (union (keys p) (keys q)).

(** The arm of the loop body of [kl] an entry takes. *)
Definition kl_branch_of (b : dict float) (kv : string * float)
  : CompareCorpora.kl_branch :=
  let '(k, v) := kv in
  if (v =? 0)%float then CompareCorpora.SkipZero
  else if (get b k 0%float =? 0)%float then CompareCorpora.EpsilonGuard
  else CompareCorpora.Ratio.

Section Libm.

(** The base 2 logarithm of the C library, which [math.log2] calls on a
    positive argument. *)
Variable libm_log2 : float -> float.

(** [math.log2(x)]: [nan] for [nan], [ValueError] unless [0 < x]. *)
Definition log2 (x : float) : option float :=
  if PrimFloat.is_nan x then Some x
  else if (0 <? x)%float then Some (libm_log2 x)
  else None.

Definition kl_step (b : dict float) (s : option float) (kv : string * float)
  : option float :=
  match s with
  | None => None
  | Some s =>
      let '(k, v) := kv in
      match kl_branch_of b kv with
      | CompareCorpora.SkipZero => Some s
      | CompareCorpora.EpsilonGuard =>
          option_map (fun l => (s + v * l)%float) (log2 (v / epsilon)%float)
      | CompareCorpora.Ratio =>
          option_map (fun l => (s + v * l)%float) (log2 (v / get b k 0)%float)
      end
  end.

Definition kl (a b : dict float) : option float :=
  fold_left (kl_step b) a (Some 0%float).

Definition js_divergence (p q : dict float) : option float :=
  let m := mixture p q in
  match kl p m, kl q m with
  | Some x, Some y => Some (0.5 * (x + y))%float
  | _, _ => None
  end.

End Libm.

End Binary64.

(** ** src/compare/compare_languages.py *)

Module CompareLanguages.

(** numpy works on arrays indexed by the key set; [np.log2] and [/] never
    raise.  On the domain where every quotient is positive the array
    operations are the real ones below. *)
Definition kl (ab : list (R * R)) : R :=
  Rsum (map (fun x => fst x * (ln (fst x / snd x) / ln 2))
            (filter (fun x => if Rlt_dec 0 (fst x) then true else false) ab)).

Definition js_divergence (p q : dict R) : R :=
  let ks := union (keys p) (keys q) in
  let p_vec := map (fun k => get p k 0) ks in
  let q_vec := map (fun k => get q k 0) ks in
  let m := map (fun x => 0.5 * (fst x + snd x)) (combine p_vec q_vec) in
  0.5 * (kl (combine p_vec m) + kl (combine q_vec m)).

(** [ngram_counts]: character n-grams of each string, the whole string when
    it is shorter than [n]. *)
Definition string_slice (s : string) (lo hi : Z) : string :=
  string_of_list_ascii (slice (list_ascii_of_string s) lo hi).

Definition ngram_keys (s : string) (n : Z) : list string :=
  let s := Tokenizer.lower s in
  let len := Z.of_nat (String.length s) in
  if (len <? n)%Z then [s]
  else map (fun i => string_slice s i (i + n)) (range (len - n + 1)).

Definition ngram_counts (strings : list string) (n : Z) : dict Z :=
  fold_left (fun c s => update c (ngram_keys s n)) strings [].

(** [normalize_counter]: the distribution and the total. *)
Definition normalize_counter (c : dict Z) : dict R * Z :=
  let total := Zsum (values c) in
  if (total =? 0)%Z then ([], total)
  else (map (fun kv => (fst kv, IZR (snd kv) / IZR total)) c, total).

(** [sorted(p.items(), key=lambda t: -t[1])]: stable, highest value
    first. *)
Fixpoint insert_prob (x : string * R) (l : list (string * R))
  : list (string * R) :=
  match l with
  | [] => [x]
  | y :: l' =>
      if Rle_dec (- snd x) (- snd y) then x :: l else y :: insert_prob x l'
  end.

Definition by_prob (p : dict R) : list (string * R) :=
  fold_right insert_prob [] p.

(** The keys of the [k] most probable entries, [...][:k]. *)
Definition topk (p : dict R) (k : Z) : list string :=
  slice (map fst (by_prob p)) 0 k.

(** [topk_overlap]: the fraction and the common keys; the set is listed in
    the order of [p], Python leaves the order of a set open. *)
Definition topk_overlap (p q : dict R) (k : Z) : Q * list string :=
  let setp := set_of (topk p k) in
  let setq := set_of (topk q k) in
  let inter_pq := inter setp setq in
  ((if (0 <? k)%Z
    then (inject_Z (Z.of_nat (List.length inter_pq)) / inject_Z k)%Q
    else 0%Q),
   slice inter_pq 0 20).

Definition space : ascii := ascii_of_nat 32.


Fixpoint split_spaces (l : list ascii) : list (list ascii) :=
  match l with
  | [] => [[]]
  | c :: l' =>
      if Ascii.eqb c space then [] :: split_spaces l'
      else match split_spaces l' with
           | w :: ws => (c :: w) :: ws
           | [] => [[c]]
           end
  end.






End CompareLanguages.

(** ** src/analytics/stats.py *)

Module Stats.

Definition ngrams (tokens : list string) (n : Z) : list (list string) :=
  if (n <=? 0)%Z then []
  else map (fun i => slice tokens i (i + n))
           (range (Z.of_nat (List.length tokens) - n + 1)).

(** One pass of the loop [for v in counter.values()]. *)
Definition entropy_step (total : Z) (ent : option R) (v : Z) : option R :=
  match ent with
  | None => None
  | Some e =>
      let p := IZR v / IZR total in
      option_map (fun l => e - p * l) (log2 p)
  end.

Definition shannon_entropy (counter : dict Z) : option R :=
  let total := Zsum (values counter) in
  if (total =? 0)%Z then Some 0
  else fold_left (entropy_step total) (values counter) (Some 0).

Definition tokenize := Tokenizer.tokenize.

End Stats.

(** ** src/analysis/report_metrics.py *)

Module ReportMetrics.

(** [ngrams] and [shannon_entropy] are the same text as in stats.py. *)
Definition ngrams := Stats.ngrams.
Definition shannon_entropy := Stats.shannon_entropy.

(** [sorted(xs, reverse=True)] on integers. *)
Fixpoint insert_desc (x : Z) (l : list Z) : list Z :=
  match l with
  | [] => [x]
  | y :: l' => if (y <=? x)%Z then x :: l else y :: insert_desc x l'
  end.

Definition sorted_desc (l : list Z) : list Z := fold_right insert_desc [] l.

Definition log10 (x : R) : R := ln x / ln 10.

(** [np.polyfit(x, y, 1)]: the coefficients [(b, a)] of the least-squares
    line [y = a + b*x], from the normal equations. *)
Definition polyfit1 (x y : list R) : R * R :=
  let n := INR (List.length x) in
  let sx := Rsum x in
  let sy := Rsum y in
  let sxx := Rsum (map (fun u => u * u) x) in
  let sxy := Rsum (map (fun uv => fst uv * snd uv) (combine x y)) in
  let b := (n * sxy - sx * sy) / (n * sxx - sx * sx) in
  (b, (sy - b * sx) / n).

Definition zipf_slope (counter : dict Z) : option R :=
  let freqs := sorted_desc (values counter) in
  if (List.length freqs <? 3)%nat then None
  else
    let ranks := map INR (seq 1 (List.length freqs)) in
    let vals := map IZR freqs in
    let N := Nat.min (List.length vals) 1000 in
    let x := map log10 (firstn N ranks) in
    let y := map log10 (firstn N vals) in
    Some (fst (polyfit1 x y)).

(** The spec's wording of the guard: the number of distinct frequency
    values of a table. *)
Definition distinct_frequency_values (counter : dict Z) : nat :=
  List.length (nodup Z.eq_dec (values counter)).

(** Residual sum of squares of the line [y = a + b*x]. *)
Definition sse (x y : list R) (a b : R) : R :=
  Rsum (map (fun uv => (snd uv - (a + b * fst uv)) * (snd uv - (a + b * fst uv)))
            (combine x y)).

Definition tokenize := Tokenizer.tokenize.

Record metrics : Type := {
  lines : nat;
  tokens : Z;
  vocab_size : nat;
  hapax_legomena : nat;
  hapax_ratio : Q;
  unigram_entropy_bits : R;
  zipf_slope_loglog : option R;
  top_unigrams : list (string * Z);
  top_bigrams : list (string * Z)
}.

(** The loop [for t in lines: tokens.extend(tokenize(t))]. *)
Definition all_tokens (lines : list string) : list string :=
  List.concat (map tokenize lines).

(** [compute_metrics]; [None] when [shannon_entropy] raises. *)
Definition compute_metrics (lines : list string) : option metrics :=
  let tokens := all_tokens lines in
  let uni := Counter tokens in
  let bi := Counter (map (join " ") (ngrams tokens 2)) in
  let vocab := List.length uni in
  let hapax := List.length (filter (fun v => (v =? 1)%Z) (values uni)) in
  match shannon_entropy uni with
  | None => None
  | Some entropy =>
      Some {| lines := List.length lines;
              tokens := Zsum (values uni);
              vocab_size := vocab;
              hapax_legomena := hapax;
              hapax_ratio :=
                match vocab with
                | O => 0%Q
                | S _ => (inject_Z (Z.of_nat hapax) / inject_Z (Z.of_nat vocab))%Q
                end;
              unigram_entropy_bits := entropy;
              zipf_slope_loglog := zipf_slope uni;
              top_unigrams := most_common uni 30;
              top_bigrams := most_common bi 30 |}
  end.

End ReportMetrics.

(** ** src/analysis/temporal_evolution.py *)

Module TemporalEvolution.

Definition is_digit (c : ascii) : bool :=
  let n := nat_of_ascii c in ((48 <=? n) && (n <=? 57))%nat.

(** The longest run of digits at the head, and what follows it. *)
Fixpoint span_digits (l : list ascii) : list ascii * list ascii :=
  match l with
  | c :: l' =>
      if is_digit c
      then let (ds, rest) := span_digits l' in (c :: ds, rest)
      else ([], l)
  | [] => ([], [])
  end.

(** [int(s)] on a run of ASCII digits. *)
Definition int_of_digits (ds : list ascii) : Z :=
  fold_left (fun acc c => (10 * acc + Z.of_nat (nat_of_ascii c - 48))%Z) ds 0%Z.

Definition is_side (c : ascii) : bool :=
  (Ascii.eqb c "r" || Ascii.eqb c "v")%char.

(** [re.match(r'(\d+)([rv])', folio)]: the two groups, when the identifier
    starts with digits followed by a side letter. *)
Definition re_match (folio : string) : option (list ascii * ascii) :=
  match span_digits (list_ascii_of_string folio) with
  | ((_ :: _) as ds, c :: _) => if is_side c then Some (ds, c) else None
  | _ => None
  end.

Definition extract_folio_order (folio : string) : Z * string :=
  match re_match folio with
  | Some (ds, side) =>
      let num := int_of_digits ds in
      ((num * 2 + (if Ascii.eqb side "r"%char then 0 else 1))%Z,
       String side EmptyString)
  | None => (0%Z, "r")
  end.

(** What the pattern [(\d+)([rv])] means at the start of an identifier:
    a non-empty run of digits, then the side letter, then anything. *)
Definition matches_pattern (folio : string) (ds : list ascii) (side : ascii)
  : Prop :=
  exists rest,
    list_ascii_of_string folio = ds ++ side :: rest /\
    ds <> [] /\ forallb is_digit ds = true /\ is_side side = true.

(** The columns of [folio_stats] the analysis below reads, with the
    counts next to them. *)
Record folio_stat : Type := {
  folio : string;
  order : Z;
  side : string;
  token_count : nat;
  unique_tokens : nat;
  tokens : list string
}.

(** [Series.unique()]: values in order of first appearance. *)
Definition unique (xs : list string) : list string :=
  fold_left (fun acc x => if mem x acc then acc else acc ++ [x]) xs [].

(** [sorted(folios, key=order)]: stable. *)
Fixpoint insert_folio (x : string) (l : list string) : list string :=
  match l with
  | [] => [x]
  | y :: l' =>
      if (fst (extract_folio_order x) <=? fst (extract_folio_order y))%Z
      then x :: l else y :: insert_folio x l'
  end.

Definition sorted_folios (l : list string) : list string :=
  fold_right insert_folio [] l.

(** [compute_folio_statistics] over the rows [(folio, token)] of
    [tokens_df]. *)
Definition compute_folio_statistics (tokens_df : list (string * string))
  : list folio_stat :=
  map (fun f =>
         let tokens_list :=
           map snd (filter (fun row => String.eqb (fst row) f) tokens_df) in
         {| folio := f;
            order := fst (extract_folio_order f);
            side := snd (extract_folio_order f);
            token_count := List.length tokens_list;
            unique_tokens := List.length (Counter tokens_list);
            tokens := tokens_list |})
      (sorted_folios (unique (map fst tokens_df))).

(** [scipy.stats.entropy(pk, qk)]: both arguments are normalised, then the
    relative entropies are added up (natural logarithm). *)
Definition rel_entr (x y : R) : R :=
  if Rlt_dec 0 x then x * ln (x / y) else 0.

Definition entropy (pk qk : list R) : R :=
  let pk' := map (fun x => x / Rsum pk) pk in
  let qk' := map (fun x => x / Rsum qk) qk in
  Rsum (map (fun xy => rel_entr (fst xy) (snd xy)) (combine pk' qk')).

Record shift : Type := {
  window_start : string;
  window_end : string;
  jaccard_similarity : Q;
  jsd_distance : R;
  vocab_size_1 : nat;
  vocab_size_2 : nat;
  new_tokens : nat;
  disappeared_tokens : nat
}.

(** [window1] and [window2] at loop index [i]; [iloc] slices as Python
    lists do. *)
Definition windows (stats : list folio_stat) (window_size i : Z)
  : list folio_stat * list folio_stat :=
  (slice stats i (i + window_size),
   slice stats (i + window_size) (i + 2 * window_size)).

Definition window_tokens (win : list folio_stat) : list string :=
  List.concat (map tokens win).

(** [if not tokens1 or not tokens2: continue] *)
Definition kept (w12 : list folio_stat * list folio_stat) : bool :=
  match window_tokens (fst w12), window_tokens (snd w12) with
  | _ :: _, _ :: _ => true
  | _, _ => false
  end.

(** The window pairs that reach the end of the loop body. *)
Definition window_pairs (stats : list folio_stat) (window_size : Z)
  : list (list folio_stat * list folio_stat) :=
  filter kept
    (map (windows stats window_size)
         (range (Z.of_nat (List.length stats) - window_size))).

Definition jsd_of (tokens1 tokens2 : list string) : R :=
  let counter1 := Counter tokens1 in
  let counter2 := Counter tokens2 in
  let all_tokens := union (keys counter1) (keys counter2) in
  let freq1 := map (fun t => IZR (get counter1 t 0%Z)) all_tokens in
  let freq2 := map (fun t => IZR (get counter2 t 0%Z)) all_tokens in
  let freq1 := map (fun x => x / Rsum freq1) freq1 in
  let freq2 := map (fun x => x / Rsum freq2) freq2 in
  let m := map (fun xy => 0.5 * (fst xy + snd xy)) (combine freq1 freq2) in
  0.5 * entropy freq1 m + 0.5 * entropy freq2 m.

Definition shift_of (w12 : list folio_stat * list folio_stat) : shift :=
  let tokens1 := window_tokens (fst w12) in
  let tokens2 := window_tokens (snd w12) in
  let vocab1 := set_of tokens1 in
  let vocab2 := set_of tokens2 in
  let overlap := List.length (inter vocab1 vocab2) in
  let union_n := List.length (union vocab1 vocab2) in
  {| window_start := hd EmptyString (map folio (fst w12));
     window_end := last (map folio (snd w12)) EmptyString;
     jaccard_similarity :=
       if (0 <? union_n)%nat
       then (inject_Z (Z.of_nat overlap) / inject_Z (Z.of_nat union_n))%Q
       else 0%Q;
     jsd_distance := jsd_of tokens1 tokens2;
     vocab_size_1 := List.length vocab1;
     vocab_size_2 := List.length vocab2;
     new_tokens := List.length (diff vocab2 vocab1);
     disappeared_tokens := List.length (diff vocab1 vocab2) |}.

Definition detect_vocabulary_shifts (stats : list folio_stat)
           (window_size : Z) : list shift :=
  map shift_of (window_pairs stats window_size).

(** The other columns [compute_folio_statistics] fills in for a folio, as
    functions of its token list. *)
Definition vocabulary_diversity (tokens_list : list string) : Q :=
  match tokens_list with
  | [] => 0%Q
  | _ :: _ =>
      (inject_Z (Z.of_nat (List.length (Counter tokens_list)))
       / inject_Z (Z.of_nat (List.length tokens_list)))%Q
  end.

Definition most_common_token (tokens_list : list string) : option string :=
  match most_common (Counter tokens_list) 1 with
  | [] => None
  | kv :: _ => Some (fst kv)
  end.

Definition most_common_freq (tokens_list : list string) : Z :=
  match most_common (Counter tokens_list) 1 with
  | [] => 0%Z
  | kv :: _ => snd kv
  end.

Definition repetition_rate (tokens_list : list string) : Q :=
  match tokens_list with
  | [] => 0%Q
  | _ :: _ =>
      (inject_Z (most_common_freq tokens_list)
       / inject_Z (Z.of_nat (List.length tokens_list)))%Q
  end.

(** [analyze_token_evolution] *)
Record evolution_row : Type := {
  ev_folio : string;
  ev_order : Z;
  frequency : Q;
  absolute_count : nat
}.

(** [tokens.count(token)] *)
Definition count (tokens_list : list string) (token : string) : nat :=
  count_occ string_dec tokens_list token.

Definition evolution_of (stats : list folio_stat) (token : string)
  : list evolution_row :=
  map (fun row =>
         {| ev_folio := folio row;
            ev_order := order row;
            frequency :=
              match tokens row with
              | [] => 0%Q
              | _ :: _ =>
                  (inject_Z (Z.of_nat (count (tokens row) token))
                   / inject_Z (Z.of_nat (List.length (tokens row))))%Q
              end;
            absolute_count := count (tokens row) token |})
      stats.

Record token_evolution : Type := {
  token : string;
  first_appearance : option string;
  last_appearance : option string;
  total_occurrences : nat;
  appears_in_folios : nat;
  evolution : list evolution_row
}.

(** The dictionary [analyze_token_evolution] returns, read off a non-empty
    [evolution_df]. *)
Definition evolution_summary (evolution_df : list evolution_row) (tok : string)
  : token_evolution :=
  let present :=
    map ev_folio (filter (fun r => (0 <? absolute_count r)%nat) evolution_df) in
  {| token := tok;
     first_appearance := hd_error present;
     last_appearance := hd_error (rev present);
     total_occurrences := list_sum (map absolute_count evolution_df);
     appears_in_folios := List.length present;
     evolution := evolution_df |}.

(** [pd.DataFrame([])] has no columns: with no folio at all,
    [evolution_df['absolute_count']] raises [KeyError] ([None]). *)
Definition analyze_token_evolution (stats : list folio_stat) (tok : string)
  : option token_evolution :=
  match evolution_of stats tok with
  | [] => None
  | (_ :: _) as evolution_df => Some (evolution_summary evolution_df tok)
  end.

End TemporalEvolution.

(** ** Definitions used to state the properties *)

Module Props.

(** All values of a dictionary are non-negative. *)
Definition nonneg (d : dict R) : Prop := Forall (fun kv => 0 <= snd kv) d.

(** [d] without its entries for [k]. *)
Definition drop_key (k : string) (d : dict R) : dict R :=
  filter (fun kv => negb (String.eqb k (fst kv))) d.

(** A reading loop resumed from the state [acc]. *)
Definition loop_from (body : list Json.json -> string -> Json.result (list Json.json))
           (fh : list string) (acc : Json.result (list Json.json))
  : Json.result (list Json.json) :=
  fold_left (fun acc ln => Json.bind acc (fun lines => body lines ln)) fh acc.

(** A decoder that knows the empty object only. *)
Definition loads_empty_object (s : string) : option Json.json :=
  if String.eqb (Json.strip s) "{}" then Some (Json.JDict []) else None.

(** Four folios with one token each, in manuscript order. *)
Definition folios_1r_2v : list TemporalEvolution.folio_stat :=
  TemporalEvolution.compute_folio_statistics
    [("1r", "daiin"); ("1v", "qokedy"); ("2r", "daiin"); ("2v", "chedy")].

(** One term of the sum [kl] of compare_corpora.py accumulates. *)
Definition kl_term (b : dict R) (kv : string * R) : R :=
  match CompareCorpora.kl_branch_of b kv with
  | CompareCorpora.SkipZero => 0
  | CompareCorpora.EpsilonGuard => snd kv * (ln (snd kv / 1e-12) / ln 2)
  | CompareCorpora.Ratio => snd kv * (ln (snd kv / get b (fst kv) 0) / ln 2)
  end.

(** Every entry of [a] is non-negative and, when positive, meets a positive
    value in [b]. *)
Definition dominated (a b : dict R) : Prop :=
  forall k v, In (k, v) a -> 0 <= v /\ (0 < v -> 0 < get b k 0).

(** One masked term of the array sum in compare_languages.py. *)
Definition np_term (x y : R) : R :=
  if Rlt_dec 0 x then x * (ln (x / y) / ln 2) else 0.

(** A probability distribution of the data model: values in [0, 1] that add
    up to one, or the empty mapping. *)
Definition is_distribution (d : dict R) : Prop :=
  wf_dict d /\ Forall (fun kv => 0 <= snd kv <= 1) d /\
  (d = [] \/ Rsum (values d) = 1).

(** The distributions of the spec's comparison example. *)
Definition example_p : dict R := [("a", 0.5); ("b", 0.5)].

(** The invariant of a frequency table: every stored count is at least 1. *)
Definition frequency_table (T : dict Z) : Prop :=
  wf_dict T /\ Forall (fun kv => (1 <= snd kv)%Z) T.

(** What one count adds to the entropy, in bits. *)
Definition ent_term (total v : Z) : R :=
  - (IZR v / IZR total) * (ln (IZR v / IZR total) / ln 2).

(** The points the fit runs over: [ReportMetrics.log10] of the ranks 1..N against [ReportMetrics.log10]
    of the N largest counts, N being at most 1000. *)
Definition zipf_x (counter : dict Z) : list R :=
  map (fun r => ReportMetrics.log10 (INR r)) (seq 1 (Nat.min (List.length counter) 1000)).

Definition zipf_y (counter : dict Z) : list R :=
  map (fun f => ReportMetrics.log10 (IZR f))
      (firstn (Nat.min (List.length counter) 1000) (ReportMetrics.sorted_desc (values counter))).

Definition sq (u : R) : R := u * u.

(** [n * sum(x^2) - sum(x)^2], the denominator of the slope. *)
Definition spread (l : list R) : R :=
  INR (List.length l) * Rsum (map sq l) - Rsum l * Rsum l.

(** A character of a token after lowering: a lower-case letter or a digit. *)
Definition is_word_char (c : ascii) : bool := Tokenizer.is_lower c || Tokenizer.is_digit c.

(** A well-formed token: not empty, made of word characters. *)
Definition word (t : string) : Prop :=
  t <> EmptyString /\ forallb is_word_char (list_ascii_of_string t) = true.

(** Folio identifiers compared by their order key. *)
Definition by_order (a b : string) : Prop :=
  (fst (TemporalEvolution.extract_folio_order a) <= fst (TemporalEvolution.extract_folio_order b))%Z.

(** The facts that hold of [out] after each [setdefault] of
    [enrich_record]. *)
Definition extends_record (record out : dict Json.json) : Prop :=
  wf_dict out /\
  (exists added, out = record ++ added) /\
  (forall k dflt, In k (keys record) -> get out k dflt = get record k dflt) /\
  (forall k, In k (keys record) -> In k (keys out)).

(** Two corpus files with the same tokens. *)
Definition example_files : list CompareCorpora.corpus_file :=
  [ {| CompareCorpora.stem := "latin"; CompareCorpora.c_tokens := ["daiin"];
       CompareCorpora.emb_sim := None |};
    {| CompareCorpora.stem := "greek"; CompareCorpora.c_tokens := ["daiin"];
       CompareCorpora.emb_sim := None |} ].

(** What [compare] guarantees about one result and the corpus file it
    comes from, for the manuscript tokens [v_tokens]. *)
Definition scored (v_tokens : list string)
  (d : CompareCorpora.detail) (c : CompareCorpora.corpus_file) : Prop :=
  CompareCorpora.corpus d = CompareCorpora.stem c /\
  CompareCorpora.embedding_similarity d = CompareCorpora.emb_sim c /\
  (CompareCorpora.c_tokens c = v_tokens ->
   CompareCorpora.jsd_unigram d = 0 /\ CompareCorpora.jsd_bigram d = 0).



(** The vocabulary counts of a shift record balance. *)
Definition balanced (s : TemporalEvolution.shift) : Prop :=
  (TemporalEvolution.disappeared_tokens s <= TemporalEvolution.vocab_size_1 s)%nat /\
  (TemporalEvolution.new_tokens s <= TemporalEvolution.vocab_size_2 s)%nat /\
  (TemporalEvolution.vocab_size_1 s - TemporalEvolution.disappeared_tokens s
   = TemporalEvolution.vocab_size_2 s - TemporalEvolution.new_tokens s)%nat /\
  TemporalEvolution.jaccard_similarity s
  = (if (0 <? TemporalEvolution.vocab_size_1 s + TemporalEvolution.new_tokens s)%nat
     then (inject_Z (Z.of_nat (TemporalEvolution.vocab_size_1 s
                               - TemporalEvolution.disappeared_tokens s))
           / inject_Z (Z.of_nat (TemporalEvolution.vocab_size_1 s
                                 + TemporalEvolution.new_tokens s)))%Q
     else 0%Q) /\
  (0 <= TemporalEvolution.jaccard_similarity s)%Q /\
  (TemporalEvolution.jaccard_similarity s <= 1)%Q.







(** Two record lines, one with a [text] field holding [daiin] and one with
    a [tokens] list holding [qokedy] and [chedy], written with the
    quotation mark [quote]; and a decoder that knows these two lines and
    the empty object. *)
Definition quote : string := String (ascii_of_nat 34) EmptyString.

Definition text_line : string :=
  ("{" ++ quote ++ "text" ++ quote ++ ": " ++ quote ++ "daiin" ++ quote ++ "}")%string.

Definition tokens_line : string :=
  ("{" ++ quote ++ "tokens" ++ quote ++ ": [" ++ quote ++ "qokedy" ++ quote
   ++ ", " ++ quote ++ "chedy" ++ quote ++ "]}")%string.

Definition loads_example (s : string) : option Json.json :=
  let s := Json.strip s in
  if String.eqb s text_line
  then Some (Json.JDict [("text", Json.JStr "daiin")])
  else if String.eqb s tokens_line
  then Some (Json.JDict [("tokens", Json.JList [Json.JStr "qokedy"; Json.JStr "chedy"])])
  else if String.eqb s "{}" then Some (Json.JDict [])
  else None.

(** A file of five lines, each ended by a line feed: the two records, a
    blank line, a malformed line and an empty object; and the same file
    without the malformed line. *)
Definition line_feed : string := String (ascii_of_nat 10) EmptyString.

Definition example_lines : list string :=
  map (fun ln => (ln ++ line_feed)%string)
      [text_line; " "; "{bad"; tokens_line; "{}"].

Definition example_lines_valid : list string :=
  map (fun ln => (ln ++ line_feed)%string)
      [text_line; " "; tokens_line; "{}"].

End Props.

Import Props.

(** * Properties *)

(** ** N-gram extraction *)

(** *** Slices and ranges *)

Lemma range_length (n : Z) : List.length (range n) = Z.to_nat n.
Proof. unfold range. now rewrite length_map, length_seq. Qed.

Lemma range_nonpos (n : Z) : (n <= 0)%Z -> range n = [].
Proof.
  intros H. unfold range.
  replace (Z.to_nat n) with 0%nat by lia. reflexivity.
Qed.

Lemma In_range (n i : Z) : In i (range n) <-> (0 <= i < n)%Z.
Proof.
  unfold range. rewrite in_map_iff. split.
  - intros [k [<- Hk]]. apply in_seq in Hk. lia.
  - intros H. exists (Z.to_nat i). split; [lia|]. apply in_seq. lia.
Qed.

Lemma slice_empty {A} (l : list A) (i : Z) :
  (0 <= i)%Z -> slice l i (i + 0) = [].
Proof.
  intros Hi. unfold slice. rewrite Z.add_0_r, Z.sub_diag. reflexivity.
Qed.

Lemma map_const_repeat {A B} (f : A -> B) (b : B) (l : list A) :
  (forall a, In a l -> f a = b) -> map f l = repeat b (List.length l).
Proof.
  induction l as [|a l IH]; intros H; simpl; [reflexivity|].
  rewrite (H a (or_introl eq_refl)), IH; [reflexivity|].
  intros x Hx. apply H. now right.
Qed.

Lemma stats_ngrams_nonpositive (tokens : list string) (n : Z) :
  (n <= 0)%Z -> Stats.ngrams tokens n = [].
Proof.
  intros H. unfold Stats.ngrams.
  destruct (Z.leb_spec n 0); [reflexivity|lia].
Qed.

Lemma stats_ngrams_short (tokens : list string) (n : Z) :
  (1 <= n)%Z -> (Z.of_nat (List.length tokens) < n)%Z ->
  Stats.ngrams tokens n = [].
Proof.
  intros H1 H2. unfold Stats.ngrams.
  destruct (Z.leb_spec n 0); [reflexivity|].
  rewrite range_nonpos; [reflexivity|lia].
Qed.

Lemma cc_ngrams_short (tokens : list string) (n : Z) :
  (1 <= n)%Z -> (Z.of_nat (List.length tokens) < n)%Z ->
  CompareCorpora.ngrams tokens n = [].
Proof.
  intros H1 H2. unfold CompareCorpora.ngrams.
  rewrite range_nonpos; [reflexivity|lia].
Qed.

(** Claim C7.  At order 0 the copy of [ngrams] in compare_corpora.py returns
    one empty tuple per position, [len(tokens) + 1] of them, and so never the
    empty result; the guarded copies in stats.py and report_metrics.py
    return the empty list. *)
Theorem cc_ngrams_order_zero (tokens : list string) :
  CompareCorpora.ngrams tokens 0 = repeat [] (S (List.length tokens))
  /\ CompareCorpora.ngrams tokens 0 <> []
  /\ Stats.ngrams tokens 0 = []
  /\ ReportMetrics.ngrams tokens 0 = [].
Proof.
  assert (E : CompareCorpora.ngrams tokens 0 = repeat [] (S (List.length tokens))).
  { unfold CompareCorpora.ngrams.
    rewrite (map_const_repeat _ (@nil string)).
    - rewrite range_length. f_equal. lia.
    - intros i Hi. apply In_range in Hi. apply slice_empty. lia. }
  split; [exact E|]. split; [rewrite E; discriminate|].
  split; reflexivity.
Qed.

(** ** Dictionaries, sums and logarithms *)

(** *** Dictionaries *)

Lemma get_notin {V} (d : dict V) (k : string) (dflt : V) :
  ~ In k (keys d) -> get d k dflt = dflt.
Proof.
  induction d as [|[k' v] d IH]; simpl; intros H; [reflexivity|].
  destruct (String.eqb_spec k k') as [->|Hne].
  - exfalso. apply H. now left.
  - apply IH. intros Hin. apply H. now right.
Qed.

Lemma get_In {V} (d : dict V) (k : string) (v dflt : V) :
  wf_dict d -> In (k, v) d -> get d k dflt = v.
Proof.
  unfold wf_dict. induction d as [|[k' v'] d IH]; simpl; intros Hwf Hin; [contradiction|].
  inversion Hwf as [|? ? Hnotin Hwf']; subst.
  destruct Hin as [E|Hin].
  - inversion E; subst. now rewrite String.eqb_refl.
  - destruct (String.eqb_spec k k') as [->|Hne].
    + exfalso. apply Hnotin. apply in_map_iff. now exists (k', v).
    + now apply IH.
Qed.

Lemma get_tabulate (f : string -> R) (ks : list string) (k : string) :
  get (map (fun k => (k, f k)) ks) k 0 = if in_dec string_dec k ks then f k else 0.
Proof.
  induction ks as [|k' ks IH]; [reflexivity|].
  cbn [map get]. rewrite IH.
  destruct (String.eqb_spec k k') as [E|Hne].
  - destruct (in_dec string_dec k (k' :: ks)) as [_|Hn]; [now rewrite E|].
    exfalso. apply Hn. left. now symmetry.
  - destruct (in_dec string_dec k ks) as [Hi|Hn];
      destruct (in_dec string_dec k (k' :: ks)) as [Hi'|Hn']; try reflexivity.
    + exfalso. apply Hn'. now right.
    + exfalso. destruct Hi' as [E|Hi']; [now apply Hne|contradiction].
Qed.

Lemma In_union (a b : list string) (k : string) :
  In k (union a b) <-> In k a \/ In k b.
Proof. unfold union. rewrite nodup_In. apply in_app_iff. Qed.

Lemma NoDup_union (a b : list string) : NoDup (union a b).
Proof. apply NoDup_nodup. Qed.

Lemma get_mixture (p q : dict R) (k : string) :
  get (CompareCorpora.mixture p q) k 0 = 0.5 * (get p k 0 + get q k 0).
Proof.
  unfold CompareCorpora.mixture.
  rewrite (get_tabulate (fun k => 0.5 * (get p k 0 + get q k 0))).
  destruct (in_dec string_dec k (union (keys p) (keys q))) as [_|Hn]; [reflexivity|].
  rewrite In_union in Hn.
  rewrite (get_notin p), (get_notin q) by tauto. lra.
Qed.

(** *** Sums *)

Lemma Rsum_app (l1 l2 : list R) : Rsum (l1 ++ l2) = Rsum l1 + Rsum l2.
Proof. induction l1 as [|x l1 IH]; simpl; [lra|]. rewrite IH. lra. Qed.

Lemma Rsum_perm (l1 l2 : list R) : Permutation l1 l2 -> Rsum l1 = Rsum l2.
Proof. induction 1; simpl; lra. Qed.

Lemma Rsum_le (A : Type) (f g : A -> R) (l : list A) :
  (forall x, In x l -> f x <= g x) -> Rsum (map f l) <= Rsum (map g l).
Proof.
  induction l as [|a l IH]; simpl; intros H; [lra|].
  pose proof (H a (or_introl eq_refl)).
  assert (Rsum (map f l) <= Rsum (map g l)) by (apply IH; intros; apply H; now right).
  lra.
Qed.

Lemma Rsum_ext (A : Type) (f g : A -> R) (l : list A) :
  (forall x, In x l -> f x = g x) -> Rsum (map f l) = Rsum (map g l).
Proof.
  induction l as [|a l IH]; simpl; intros H; [lra|].
  rewrite (H a (or_introl eq_refl)), IH; [reflexivity|].
  intros; apply H; now right.
Qed.

Lemma Rsum_nonneg (l : list R) : Forall (fun x => 0 <= x) l -> 0 <= Rsum l.
Proof. induction 1; simpl; lra. Qed.

Lemma Rsum_map_plus (A : Type) (f g : A -> R) (l : list A) :
  Rsum (map (fun x => f x + g x) l) = Rsum (map f l) + Rsum (map g l).
Proof. induction l as [|a l IH]; simpl; [lra|]. rewrite IH. lra. Qed.

Lemma Rsum_map_scal (A : Type) (c : R) (f : A -> R) (l : list A) :
  Rsum (map (fun x => c * f x) l) = c * Rsum (map f l).
Proof. induction l as [|a l IH]; simpl; [lra|]. rewrite IH. lra. Qed.


Lemma get_drop_key (d : dict R) (k k' : string) :
  k' <> k -> get (drop_key k d) k' 0 = get d k' 0.
Proof.
  intros Hne. induction d as [|[k0 v] d IH]; simpl; [reflexivity|].
  destruct (String.eqb_spec k k0) as [->|Hk]; simpl.
  - destruct (String.eqb_spec k' k0); [contradiction|exact IH].
  - rewrite IH. reflexivity.
Qed.

Lemma nonneg_drop_key (d : dict R) (k : string) : nonneg d -> nonneg (drop_key k d).
Proof.
  unfold nonneg, drop_key. rewrite !Forall_forall. intros H x Hx.
  apply filter_In in Hx. apply H. tauto.
Qed.

Lemma mass_split (d : dict R) (k : string) :
  nonneg d -> get d k 0 + Rsum (values (drop_key k d)) <= Rsum (values d).
Proof.
  induction 1 as [|[k0 v] d Hv Hd IH]; simpl; [lra|].
  simpl in Hv.
  destruct (String.eqb_spec k k0) as [->|Hk]; simpl.
  - assert (0 <= get d k0 0 + Rsum (values (drop_key k0 d)) -> True) by trivial.
    assert (Hrest : Rsum (values (drop_key k0 d)) <= Rsum (values d)).
    { clear IH Hv. induction Hd as [|[k1 v1] d Hv1 Hd IHd]; simpl; [lra|].
      simpl in Hv1. destruct (String.eqb k0 k1); simpl; lra. }
    lra.
  - lra.
Qed.

Lemma mass_on_keys (ks : list string) (d : dict R) :
  NoDup ks -> nonneg d ->
  Rsum (map (fun k => get d k 0) ks) <= Rsum (values d).
Proof.
  intros Hks. revert d. induction Hks as [|k ks Hnotin Hks IH]; intros d Hd; simpl.
  - apply Rsum_nonneg. unfold values. apply Forall_map. exact Hd.
  - pose proof (mass_split d k Hd) as Hs.
    pose proof (IH (drop_key k d) (nonneg_drop_key d k Hd)) as Hr.
    rewrite (Rsum_ext _ (fun k' => get (drop_key k d) k' 0) (fun k' => get d k' 0)) in Hr.
    + lra.
    + intros k' Hk'. apply get_drop_key. intros ->. contradiction.
Qed.

Lemma mass_own_keys (d : dict R) :
  wf_dict d -> Rsum (map (fun k => get d k 0) (keys d)) = Rsum (values d).
Proof.
  intros Hwf. unfold keys, values. rewrite map_map.
  apply Rsum_ext. intros [k v] Hin. simpl. now apply get_In.
Qed.

(** *** Logarithms *)

Lemma ln2_pos : 0 < ln 2.
Proof. pose proof ln_lt_2. lra. Qed.

Lemma ln_le_sub1 (x : R) : 0 < x -> ln x <= x - 1.
Proof.
  intros Hx. pose proof (exp_ineq1_le (ln x)) as H.
  rewrite (exp_ln x Hx) in H. lra.
Qed.

Lemma ln_le_mono (x y : R) : 0 < x -> x <= y -> ln x <= ln y.
Proof.
  intros Hx [Hlt | ->]; [|lra]. left. now apply ln_increasing.
Qed.

Lemma log2_pos_arg (x : R) : 0 < x -> log2 x = Some (ln x / ln 2).
Proof. intros H. unfold log2. destruct (Rlt_dec 0 x); [reflexivity|contradiction]. Qed.

(** One term of a KL sum, in bits, against the mixture value [bv]. *)
Lemma kl_term_lower (v bv : R) :
  0 < v -> 0 < bv -> (v - bv) / ln 2 <= v * (ln (v / bv) / ln 2).
Proof.
  intros Hv Hb. pose proof ln2_pos as H2.
  assert (Hq : 0 < bv / v) by (apply Rdiv_lt_0_compat; lra).
  pose proof (ln_le_sub1 (bv / v) Hq) as Hl.
  assert (E : ln (v / bv) = - ln (bv / v)).
  { rewrite <- ln_Rinv by exact Hq. f_equal. field. lra. }
  rewrite E.
  assert (Hm : v * (bv / v - 1) = bv - v) by (field; lra).
  assert (v * ln (bv / v) <= bv - v) by (rewrite <- Hm; apply Rmult_le_compat_l; lra).
  unfold Rdiv. rewrite <- Rmult_assoc.
  apply Rmult_le_compat_r; [left; now apply Rinv_0_lt_compat|]. lra.
Qed.

Lemma kl_term_upper (v bv : R) :
  0 < v -> v <= 2 * bv -> v * (ln (v / bv) / ln 2) <= v.
Proof.
  intros Hv Hb. pose proof ln2_pos as H2.
  assert (Hq : 0 < v / bv) by (apply Rdiv_lt_0_compat; lra).
  assert (Hle : v / bv <= 2).
  { apply (Rmult_le_reg_r bv); [lra|]. unfold Rdiv. rewrite Rmult_assoc, Rinv_l; lra. }
  pose proof (ln_le_mono _ _ Hq Hle) as Hl.
  assert (ln (v / bv) / ln 2 <= 1).
  { apply (Rmult_le_reg_r (ln 2)); [lra|]. unfold Rdiv. rewrite Rmult_assoc, Rinv_l; lra. }
  assert (v * (ln (v / bv) / ln 2) <= v * 1) by (apply Rmult_le_compat_l; lra).
  lra.
Qed.

(** ** The folio order key *)

Section FolioOrder.
Import TemporalEvolution.

Lemma side_not_digit (c : ascii) : is_side c = true -> is_digit c = false.
Proof.
  unfold is_side. intros H. apply orb_true_iff in H.
  destruct H as [H|H]; apply Ascii.eqb_eq in H; subst c; reflexivity.
Qed.

Lemma span_digits_app (ds : list ascii) (c : ascii) (rest : list ascii) :
  forallb is_digit ds = true -> is_digit c = false ->
  span_digits (ds ++ c :: rest) = (ds, c :: rest).
Proof.
  intros Hds Hc. induction ds as [|d ds IH]; simpl.
  - now rewrite Hc.
  - simpl in Hds. apply andb_true_iff in Hds. destruct Hds as [Hd Hds].
    rewrite Hd, (IH Hds). reflexivity.
Qed.

Lemma span_digits_sound (l ds rest : list ascii) :
  span_digits l = (ds, rest) -> l = ds ++ rest /\ forallb is_digit ds = true.
Proof.
  revert ds rest. induction l as [|c l IH]; simpl; intros ds rest H.
  - inversion H. now split.
  - destruct (is_digit c) eqn:Hc.
    + destruct (span_digits l) as [ds' rest'] eqn:E.
      inversion H; subst. destruct (IH _ _ eq_refl) as [-> Hds].
      split; [reflexivity|]. simpl. now rewrite Hc.
    + inversion H. now split.
Qed.

Lemma re_match_complete (folio : string) (ds : list ascii) (c : ascii) :
  matches_pattern folio ds c -> re_match folio = Some (ds, c).
Proof.
  intros [rest [E [Hne [Hds Hc]]]]. unfold re_match.
  rewrite E, (span_digits_app ds c rest Hds (side_not_digit c Hc)).
  destruct ds; [contradiction|]. now rewrite Hc.
Qed.

Lemma re_match_sound (folio : string) (ds : list ascii) (c : ascii) :
  re_match folio = Some (ds, c) -> matches_pattern folio ds c.
Proof.
  unfold re_match. destruct (span_digits (list_ascii_of_string folio)) as [ds' rest'] eqn:E.
  apply span_digits_sound in E. destruct E as [E Hds].
  destruct ds' as [|d ds']; [discriminate|].
  destruct rest' as [|c' rest']; [discriminate|].
  destruct (is_side c') eqn:Hc; [|discriminate].
  intros H. inversion H; subst. exists rest'. repeat split; auto. discriminate.
Qed.

(** Claim C9.  When the identifier starts with digits followed by [r], the
    order key is [2 * number + 0] with side [r]; followed by [v], it is
    [2 * number + 1] with side [v]; an identifier that does not start that
    way gets order 0 and side [r]. *)
Theorem extract_folio_order_spec (folio : string) :
  (forall ds, matches_pattern folio ds "r"%char ->
     extract_folio_order folio = ((2 * int_of_digits ds + 0)%Z, "r")) /\
  (forall ds, matches_pattern folio ds "v"%char ->
     extract_folio_order folio = ((2 * int_of_digits ds + 1)%Z, "v")) /\
  ((forall ds c, ~ matches_pattern folio ds c) ->
     extract_folio_order folio = (0%Z, "r")).
Proof.
  unfold extract_folio_order. repeat split.
  - intros ds H. rewrite (re_match_complete _ _ _ H). cbv beta iota zeta. f_equal. cbn [Ascii.eqb Bool.eqb andb]. lia.
  - intros ds H. rewrite (re_match_complete _ _ _ H). cbv beta iota zeta. f_equal. cbn [Ascii.eqb Bool.eqb andb]. lia.
  - intros H. destruct (re_match folio) as [[ds c]|] eqn:E; [|reflexivity].
    exfalso. exact (H ds c (re_match_sound _ _ _ E)).
Qed.

(** Claim C9 at two identifiers: ["103v"] matches the pattern, ["f1r"] does
    not. *)
Lemma extract_folio_order_witness :
  extract_folio_order "103v" = (207%Z, "v") /\
  extract_folio_order "f1r" = (0%Z, "r").
Proof.
  split.
  - apply (proj1 (proj2 (extract_folio_order_spec "103v")) ["1"; "0"; "3"]%char).
    exists []. repeat split. discriminate.
  - apply (proj2 (proj2 (extract_folio_order_spec "f1r"))).
    intros ds c [rest [E [Hne [Hds _]]]].
    destruct ds as [|d ds]; [contradiction|].
    simpl in E. inversion E; subst d. discriminate.
Defined.

End FolioOrder.

(** ** Windowed vocabulary shifts *)

Section VocabularyShifts.
Import TemporalEvolution.

Lemma range_seq (n : nat) : range (Z.of_nat n) = map Z.of_nat (seq 0 n).
Proof. unfold range. now rewrite Nat2Z.id. Qed.

Lemma slice_firstn_skipn {A} (l : list A) (i w : nat) :
  slice l (Z.of_nat i) (Z.of_nat i + Z.of_nat w) = firstn w (skipn i l).
Proof.
  unfold slice, clip.
  destruct (Z.ltb_spec (Z.of_nat i) 0); [lia|].
  destruct (Z.ltb_spec (Z.of_nat i + Z.of_nat w) 0); [lia|].
  destruct (Nat.le_gt_cases i (List.length l)) as [Hi|Hi].
  - replace (Z.to_nat (Z.min (Z.of_nat i) (Z.of_nat (List.length l)))) with i by lia.
    replace (Z.to_nat (Z.min (Z.of_nat i + Z.of_nat w) (Z.of_nat (List.length l))
                       - Z.min (Z.of_nat i) (Z.of_nat (List.length l))))
      with (Nat.min w (List.length (skipn i l))) by (rewrite length_skipn; lia).
    rewrite <- firstn_firstn. now rewrite (firstn_all (skipn i l)).
  - replace (Z.to_nat (Z.min (Z.of_nat i) (Z.of_nat (List.length l))))
      with (List.length l) by lia.
    rewrite skipn_all. rewrite (skipn_all2 l) by lia.
    now rewrite !firstn_nil.
Qed.

Lemma In_insert_folio (x y : string) (l : list string) :
  In y (insert_folio x l) -> y = x \/ In y l.
Proof.
  induction l as [|z l IH]; simpl.
  - intros [H|[]]; auto.
  - destruct (_ <=? _)%Z; simpl.
    + intros [H|H]; auto.
    + intros [H|H]; auto. destruct (IH H); auto.
Qed.

Lemma In_sorted_folios (y : string) (l : list string) :
  In y (sorted_folios l) -> In y l.
Proof.
  induction l as [|x l IH]; simpl; [auto|].
  intros H. apply In_insert_folio in H. destruct H; auto.
Qed.

Lemma In_unique_acc (y : string) (xs acc : list string) :
  In y (fold_left (fun acc x => if mem x acc then acc else acc ++ [x]) xs acc) ->
  In y acc \/ In y xs.
Proof.
  revert acc. induction xs as [|x xs IH]; simpl; intros acc H; [auto|].
  apply IH in H. destruct H as [H|H]; [|auto].
  destruct (mem x acc); [auto|].
  apply in_app_or in H. destruct H as [H|[H|[]]]; auto.
Qed.

Lemma In_unique (y : string) (xs : list string) : In y (unique xs) -> In y xs.
Proof. intros H. apply In_unique_acc in H. destruct H as [[]|H]; exact H. Qed.

(** Every folio of [folio_stats] owns at least one row of [tokens_df]. *)
Lemma compute_folio_statistics_tokens (tokens_df : list (string * string)) :
  Forall (fun s => tokens s <> []) (compute_folio_statistics tokens_df).
Proof.
  unfold compute_folio_statistics. apply Forall_forall. intros s Hs.
  apply in_map_iff in Hs. destruct Hs as [f [<- Hf]]. simpl.
  apply In_sorted_folios, In_unique, in_map_iff in Hf.
  destruct Hf as [[f' t] [E Hrow]]. simpl in E. subst f'.
  intros Hnil.
  assert (Hin : In t (map snd (filter (fun row => String.eqb (fst row) f) tokens_df))).
  { apply in_map_iff. exists (f, t). split; [reflexivity|].
    apply filter_In. split; [exact Hrow|]. simpl. apply String.eqb_refl. }
  rewrite Hnil in Hin. exact Hin.
Qed.

Lemma window_tokens_nonempty (win : list folio_stat) :
  Forall (fun s => tokens s <> []) win -> win <> [] -> window_tokens win <> [].
Proof.
  intros Hall Hne. destruct win as [|s win]; [contradiction|].
  inversion Hall; subst. unfold window_tokens. simpl.
  destruct (tokens s); [contradiction|discriminate].
Qed.

Lemma Forall_firstn_skipn {A} (P : A -> Prop) (l : list A) (i w : nat) :
  Forall P l -> Forall P (firstn w (skipn i l)).
Proof.
  intros H. apply Forall_forall. intros x Hx.
  apply (proj1 (Forall_forall P l) H).
  rewrite <- (firstn_skipn i l). apply in_or_app. right.
  rewrite <- (firstn_skipn w (skipn i l)). apply in_or_app. now left.
Qed.

Lemma firstn_skipn_nonempty {A} (l : list A) (i w : nat) :
  (0 < w)%nat -> (i < List.length l)%nat -> firstn w (skipn i l) <> [].
Proof.
  intros Hw Hi E. apply (f_equal (@List.length A)) in E.
  rewrite length_firstn, length_skipn in E. simpl in E. lia.
Qed.

Lemma filter_all {A} (f : A -> bool) (l : list A) :
  (forall x, In x l -> f x = true) -> filter f l = l.
Proof.
  induction l as [|a l IH]; intros H; simpl; [reflexivity|].
  rewrite (H a (or_introl eq_refl)), IH; [reflexivity|].
  intros x Hx. apply H. now right.
Qed.

Lemma windows_nat (stats : list folio_stat) (w i : nat) :
  windows stats (Z.of_nat w) (Z.of_nat i) =
  (firstn w (skipn i stats), firstn w (skipn (i + w) stats)).
Proof.
  unfold windows. f_equal.
  - apply slice_firstn_skipn.
  - replace (Z.of_nat i + 2 * Z.of_nat w)%Z
      with (Z.of_nat (i + w) + Z.of_nat w)%Z by lia.
    rewrite <- Nat2Z.inj_add. apply slice_firstn_skipn.
Qed.

(** Claim C3, as amended.  Over [N] folios that all carry tokens, and with a
    window size [w >= 1], no loop index is skipped: index [i] compares the
    folios [i, i+w) with the folios [i+w, min(i+2w, N)), for every
    [i < N - w], so the analysis yields [N - w] comparisons (none when
    [N <= w]). *)
Theorem detect_vocabulary_shifts_count (stats : list folio_stat) (w : nat) :
  Forall (fun s => tokens s <> []) stats ->
  (1 <= w)%nat ->
  window_pairs stats (Z.of_nat w) =
    map (fun i => (firstn w (skipn i stats), firstn w (skipn (i + w) stats)))
        (seq 0 (List.length stats - w))
  /\ List.length (detect_vocabulary_shifts stats (Z.of_nat w))
     = (List.length stats - w)%nat.
Proof.
  intros Hall Hw.
  assert (E : window_pairs stats (Z.of_nat w) =
    map (fun i => (firstn w (skipn i stats), firstn w (skipn (i + w) stats)))
        (seq 0 (List.length stats - w))).
  { unfold window_pairs, range.
    replace (Z.to_nat (Z.of_nat (List.length stats) - Z.of_nat w))
      with (List.length stats - w)%nat by lia.
    rewrite map_map.
    rewrite (map_ext _ _ (windows_nat stats w)).
    apply filter_all. intros [w1 w2] Hin.
    apply in_map_iff in Hin. destruct Hin as [i [Ei Hi]].
    apply in_seq in Hi. inversion Ei; subst w1 w2. clear Ei.
    unfold kept. simpl.
    pose proof (window_tokens_nonempty _
                  (Forall_firstn_skipn _ stats i w Hall)
                  (firstn_skipn_nonempty stats i w ltac:(lia) ltac:(lia))) as H1.
    pose proof (window_tokens_nonempty _
                  (Forall_firstn_skipn _ stats (i + w) w Hall)
                  (firstn_skipn_nonempty stats (i + w) w ltac:(lia) ltac:(lia))) as H2.
    destruct (window_tokens (firstn w (skipn i stats))); [contradiction|].
    destruct (window_tokens (firstn w (skipn (i + w) stats))); [contradiction|].
    reflexivity. }
  split; [exact E|].
  unfold detect_vocabulary_shifts. rewrite length_map, E, length_map, length_seq.
  reflexivity.
Qed.


(** Claim C3, as amended, on four folios with window size 2. *)
Lemma detect_vocabulary_shifts_count_witness :
  List.length (detect_vocabulary_shifts folios_1r_2v 2) = 2%nat.
Proof.
  apply (proj2 (detect_vocabulary_shifts_count folios_1r_2v 2
                  (compute_folio_statistics_tokens _) (le_S _ _ (le_n 1)))).
Defined.

(** Claim C3 as stated fails: on the folios 1r, 1v, 2r, 2v the analysis with
    window size 1 makes 3 comparisons, not 2, and with window size 2 it
    makes 2, not [N - 2w + 1 = 1]. *)
Lemma detect_vocabulary_shifts_counterexample :
  map folio folios_1r_2v = ["1r"; "1v"; "2r"; "2v"] /\
  List.length (detect_vocabulary_shifts folios_1r_2v 1) = 3%nat /\
  List.length (detect_vocabulary_shifts folios_1r_2v 1) <> 2%nat /\
  Z.of_nat (List.length (detect_vocabulary_shifts folios_1r_2v 2))
    <> (4 - 2 * 2 + 1)%Z.
Proof.
  unfold detect_vocabulary_shifts. rewrite !length_map.
  repeat split; try reflexivity; vm_compute; discriminate.
Qed.

End VocabularyShifts.

(** ** Reading JSONL records *)

Section JsonlReaders.
Import Json.

Section ReaderFacts.

Variable json_loads : string -> option json.


Lemma loop_from_raise body fh e : loop_from body fh (Raise e) = Raise e.
Proof. induction fh as [|ln fh IH]; simpl; auto. Qed.

Lemma run_loop_app body fh1 fh2 :
  run_loop body (fh1 ++ fh2) = loop_from body fh2 (run_loop body fh1).
Proof. unfold run_loop, loop_from. apply fold_left_app. Qed.

Lemma rm_line_malformed lines ln :
  json_loads (strip ln) = None -> rm_line json_loads lines ln = Ok lines.
Proof.
  intros H. unfold rm_line. destruct (String.eqb (strip ln) EmptyString); [reflexivity|].
  now rewrite H.
Qed.

Lemma cc_line_malformed lines ln :
  strip ln <> EmptyString -> json_loads ln = None ->
  cc_line json_loads lines ln = Raise JSONDecodeError.
Proof.
  intros Hne H. unfold cc_line.
  destruct (String.eqb_spec (strip ln) EmptyString); [contradiction|].
  now rewrite H.
Qed.

(** The guarded reader drops a line that does not decode and goes on. *)
Lemma read_lines_from_jsonl_skips before ln after :
  json_loads (strip ln) = None ->
  read_lines_from_jsonl json_loads (Some (before ++ ln :: after)) =
  read_lines_from_jsonl json_loads (Some (before ++ after)).
Proof.
  intros H. simpl. rewrite !run_loop_app. simpl.
  destruct (run_loop (rm_line json_loads) before) as [lines|e]; simpl.
  - now rewrite (rm_line_malformed lines ln H).
  - reflexivity.
Qed.

(** A line that decodes to something other than an object is outside the
    [try]: [obj.get] raises in both readers. *)
Lemma rm_line_not_object lines ln v :
  strip ln <> EmptyString -> json_loads (strip ln) = Some v ->
  (forall d, v <> JDict d) ->
  rm_line json_loads lines ln = Raise AttributeError.
Proof.
  intros Hne H Hv. unfold rm_line.
  destruct (String.eqb_spec (strip ln) EmptyString); [contradiction|].
  rewrite H. destruct v; try reflexivity. now destruct (Hv d).
Qed.

(** Claim C6.  [read_voynich_lines] does not skip a malformed line: once the
    lines before it were read, a non-blank line that [json.loads] rejects
    makes the whole call raise [JSONDecodeError], whatever follows. *)
Theorem read_voynich_lines_aborts before ln after lines :
  read_voynich_lines json_loads (Some before) = Ok lines ->
  strip ln <> EmptyString ->
  json_loads ln = None ->
  read_voynich_lines json_loads (Some (before ++ ln :: after))
  = Raise JSONDecodeError.
Proof.
  simpl. intros Hb Hne H. rewrite run_loop_app, Hb. simpl.
  rewrite (cc_line_malformed lines ln Hne H). apply loop_from_raise.
Qed.

End ReaderFacts.


(** Claim C6 on a three-line file whose second line is malformed:
    [read_voynich_lines] raises, [read_lines_from_jsonl] returns. *)
Lemma read_voynich_lines_aborts_witness :
  read_voynich_lines loads_empty_object (Some ["{}"; "{bad"; "{}"])
    = Raise JSONDecodeError
  /\ read_lines_from_jsonl loads_empty_object (Some ["{}"; "{bad"; "{}"])
    = Ok [].
Proof.
  split.
  - apply (read_voynich_lines_aborts loads_empty_object ["{}"] "{bad" ["{}"] []).
    + reflexivity.
    + discriminate.
    + reflexivity.
  - reflexivity.
Defined.

End JsonlReaders.

(** ** Kullback-Leibler sums against the mixture *)

Section KullbackLeibler.
Import CompareCorpora.



Lemma get_nonneg (d : dict R) (k : string) : nonneg d -> 0 <= get d k 0.
Proof.
  induction 1 as [|[k' v] d Hv Hd IH]; simpl; [lra|].
  destruct (String.eqb k k'); [exact Hv|exact IH].
Qed.

Lemma nonneg_In (d : dict R) (k : string) (v : R) :
  nonneg d -> In (k, v) d -> 0 <= v.
Proof.
  intros H Hin. exact (proj1 (Forall_forall _ d) H (k, v) Hin).
Qed.


Lemma kl_step_dominated (b : dict R) (s : R) (k : string) (v : R) :
  0 <= v -> (0 < v -> 0 < get b k 0) ->
  kl_step b (Some s) (k, v) = Some (s + kl_term b (k, v)).
Proof.
  intros Hv Hb. unfold kl_step, kl_term, kl_branch_of. simpl.
  destruct (Req_dec_T v 0) as [_|Hv0]; [f_equal; lra|].
  assert (Hvp : 0 < v) by lra. specialize (Hb Hvp).
  destruct (Req_dec_T (get b k 0) 0) as [Hb0|_]; [lra|].
  rewrite log2_pos_arg by (apply Rdiv_lt_0_compat; lra). reflexivity.
Qed.

Lemma kl_fold_dominated (a b : dict R) (s : R) :
  dominated a b ->
  fold_left (kl_step b) a (Some s) = Some (s + Rsum (map (kl_term b) a)).
Proof.
  revert s. induction a as [|[k v] a IH]; intros s Hd; cbn [fold_left map].
  - f_equal. simpl. lra.
  - destruct (Hd k v (or_introl eq_refl)) as [Hv Hb].
    rewrite (kl_step_dominated b s k v Hv Hb).
    rewrite IH by (intros k' v' Hin; apply Hd; now right).
    f_equal. unfold Rsum. cbn [fold_right]. lra.
Qed.

Lemma kl_dominated (a b : dict R) :
  dominated a b -> kl a b = Some (Rsum (map (kl_term b) a)).
Proof.
  intros Hd. unfold kl. rewrite (kl_fold_dominated a b 0 Hd). f_equal. lra.
Qed.


(** A dictionary against a mixture that holds half of its mass. *)
Lemma dominated_mixture (a o m : dict R) :
  wf_dict a -> nonneg a -> nonneg o ->
  (forall k, get m k 0 = 0.5 * (get a k 0 + get o k 0)) ->
  dominated a m.
Proof.
  intros Hwf Ha Ho Hm k v Hin. pose proof (nonneg_In a k v Ha Hin) as Hv.
  split; [exact Hv|]. intros Hp. rewrite Hm, (get_In a k v 0 Hwf Hin).
  pose proof (get_nonneg o k Ho). lra.
Qed.

Lemma kl_term_bounds (a o m : dict R) (k : string) (v : R) :
  wf_dict a -> nonneg a -> nonneg o ->
  (forall k, get m k 0 = 0.5 * (get a k 0 + get o k 0)) ->
  In (k, v) a ->
  (v - get m k 0) / ln 2 <= kl_term m (k, v) <= v.
Proof.
  intros Hwf Ha Ho Hm Hin. pose proof (nonneg_In a k v Ha Hin) as Hv.
  pose proof (get_nonneg o k Ho) as Hok. pose proof ln2_pos as H2.
  assert (Hmk : get m k 0 = 0.5 * (v + get o k 0))
    by (rewrite Hm, (get_In a k v 0 Hwf Hin); reflexivity).
  unfold kl_term, kl_branch_of. simpl.
  destruct (Req_dec_T v 0) as [Hv0|Hv0].
  - subst v. split; [|lra].
    assert (0 <= get m k 0 / ln 2).
    { apply Rmult_le_pos; [lra|]. left. now apply Rinv_0_lt_compat. }
    unfold Rdiv in *. lra.
  - assert (Hvp : 0 < v) by lra.
    destruct (Req_dec_T (get m k 0) 0) as [Hb0|_]; [lra|].
    split.
    + apply kl_term_lower; lra.
    + apply kl_term_upper; lra.
Qed.

Lemma kl_mixture_bounds (a o m : dict R) :
  wf_dict a -> nonneg a -> nonneg o ->
  (forall k, get m k 0 = 0.5 * (get a k 0 + get o k 0)) ->
  exists K, kl a m = Some K /\
    (0.5 * Rsum (values a) - 0.5 * Rsum (values o)) / ln 2 <= K <= Rsum (values a).
Proof.
  intros Hwf Ha Ho Hm. pose proof ln2_pos as H2.
  exists (Rsum (map (kl_term m) a)). split.
  - apply kl_dominated. now apply (dominated_mixture a o).
  - split.
    + (* below: sum the per-term bounds *)
      pose proof (Rsum_le _ (fun kv => (snd kv - get m (fst kv) 0) / ln 2)
                    (kl_term m) a) as Hlow.
      assert (Hall : forall x, In x a ->
                (snd x - get m (fst x) 0) / ln 2 <= kl_term m x).
      { intros [k v] Hin. simpl. apply (kl_term_bounds a o m k v); assumption. }
      specialize (Hlow Hall). eapply Rle_trans; [|exact Hlow].
      assert (E : Rsum (map (fun kv => (snd kv - get m (fst kv) 0) / ln 2) a)
                  = (Rsum (values a)
                     - Rsum (map (fun k => get m k 0) (keys a))) / ln 2).
      { unfold values, keys. rewrite map_map. clear.
        induction a as [|[k v] a IH]; simpl; [lra|]. rewrite IH. lra. }
      rewrite E.
      assert (Em : Rsum (map (fun k => get m k 0) (keys a))
                   = 0.5 * Rsum (values a)
                     + 0.5 * Rsum (map (fun k => get o k 0) (keys a))).
      { rewrite (Rsum_ext _ (fun k => get m k 0)
                   (fun k => 0.5 * get a k 0 + 0.5 * get o k 0))
          by (intros k _; rewrite Hm; lra).
        rewrite (Rsum_map_plus _ (fun k => 0.5 * get a k 0) (fun k => 0.5 * get o k 0)).
        rewrite !Rsum_map_scal, (mass_own_keys a Hwf). reflexivity. }
      rewrite Em.
      pose proof (mass_on_keys (keys a) o Hwf Ho) as Hmass.
      unfold Rdiv. apply Rmult_le_compat_r; [left; now apply Rinv_0_lt_compat|].
      lra.
    + pose proof (Rsum_le _ (kl_term m) snd a) as Hup.
      apply Hup. intros [k v] Hin. simpl.
      apply (kl_term_bounds a o m k v); assumption.
Qed.

End KullbackLeibler.

(** ** The array implementation *)

Section NumpyDivergence.


Lemma np_kl_keys (f g : string -> R) (ks : list string) :
  CompareLanguages.kl (combine (map f ks) (map g ks))
  = Rsum (map (fun k => np_term (f k) (g k)) ks).
Proof.
  unfold CompareLanguages.kl, np_term.
  induction ks as [|k ks IH]; simpl; [reflexivity|].
  destruct (Rlt_dec 0 (f k)); simpl; rewrite IH; lra.
Qed.

Lemma np_mixture_keys (f g : string -> R) (ks : list string) :
  map (fun x => 0.5 * (fst x + snd x)) (combine (map f ks) (map g ks))
  = map (fun k => 0.5 * (f k + g k)) ks.
Proof. induction ks as [|k ks IH]; simpl; [reflexivity|]. now rewrite IH. Qed.

Lemma np_js_divergence_keys (p q : dict R) :
  CompareLanguages.js_divergence p q =
  0.5 * (Rsum (map (fun k => np_term (get p k 0) (0.5 * (get p k 0 + get q k 0)))
                   (union (keys p) (keys q)))
         + Rsum (map (fun k => np_term (get q k 0) (0.5 * (get p k 0 + get q k 0)))
                     (union (keys p) (keys q)))).
Proof.
  unfold CompareLanguages.js_divergence.
  rewrite (np_mixture_keys (fun k => get p k 0) (fun k => get q k 0)).
  rewrite (np_kl_keys (fun k => get p k 0) (fun k => 0.5 * (get p k 0 + get q k 0))).
  rewrite (np_kl_keys (fun k => get q k 0) (fun k => 0.5 * (get p k 0 + get q k 0))).
  reflexivity.
Qed.

(** A sum over distinct keys only sees the keys where the summand is not
    zero. *)
Lemma Rsum_support (F : string -> R) (ks ks' : list string) :
  NoDup ks -> NoDup ks' -> incl ks' ks ->
  (forall k, In k ks -> ~ In k ks' -> F k = 0) ->
  Rsum (map F ks) = Rsum (map F ks').
Proof.
  intros Hks Hks' Hincl Hzero.
  assert (HP : Permutation ks (ks' ++ filter (fun k => negb (mem k ks')) ks)).
  { apply NoDup_Permutation; [exact Hks| |].
    - apply NoDup_app; [exact Hks'|now apply NoDup_filter|].
      intros k Hk Hf. apply filter_In in Hf. destruct Hf as [_ Hf].
      unfold mem in Hf. destruct (in_dec string_dec k ks'); [discriminate|contradiction].
    - intros k. rewrite in_app_iff, filter_In. unfold mem. split.
      + intros Hk. destruct (in_dec string_dec k ks'); [now left|right; now split].
      + intros [Hk|[Hk _]]; [now apply Hincl|exact Hk]. }
  rewrite (Rsum_perm _ _ (Permutation_map F HP)), map_app, Rsum_app.
  assert (Hz : Rsum (map F (filter (fun k => negb (mem k ks')) ks)) = 0).
  { rewrite (Rsum_ext _ F (fun _ => 0)).
    - clear. induction (filter _ ks); simpl; [reflexivity|]. rewrite IHl. lra.
    - intros k Hk. apply filter_In in Hk. destruct Hk as [Hk Hm].
      apply Hzero; [exact Hk|]. unfold mem in Hm.
      destruct (in_dec string_dec k ks'); [discriminate|assumption]. }
  rewrite Hz. lra.
Qed.

Lemma np_term_zero (y : R) : np_term 0 y = 0.
Proof. unfold np_term. destruct (Rlt_dec 0 0); [lra|reflexivity]. Qed.

(** On a dictionary that the mixture dominates, the loop of
    compare_corpora.py and the masked array sum add up the same terms. *)
Lemma kl_term_np (a m : dict R) (k : string) (v : R) :
  0 <= v -> (0 < v -> 0 < get m k 0) ->
  kl_term m (k, v) = np_term v (get m k 0).
Proof.
  intros Hv Hb. unfold kl_term, CompareCorpora.kl_branch_of, np_term. simpl.
  destruct (Req_dec_T v 0) as [Hv0|Hv0].
  - destruct (Rlt_dec 0 v); [lra|reflexivity].
  - assert (Hvp : 0 < v) by lra. specialize (Hb Hvp).
    destruct (Req_dec_T (get m k 0) 0); [lra|].
    destruct (Rlt_dec 0 v); [reflexivity|contradiction].
Qed.

Lemma kl_as_key_sum (a o m : dict R) (ks : list string) :
  wf_dict a -> nonneg a -> nonneg o ->
  (forall k, get m k 0 = 0.5 * (get a k 0 + get o k 0)) ->
  NoDup ks -> incl (keys a) ks ->
  CompareCorpora.kl a m
  = Some (Rsum (map (fun k => np_term (get a k 0) (get m k 0)) ks)).
Proof.
  intros Hwf Ha Ho Hm Hks Hincl.
  pose proof (dominated_mixture a o m Hwf Ha Ho Hm) as Hd.
  rewrite (kl_dominated a m Hd). f_equal.
  rewrite (Rsum_support (fun k => np_term (get a k 0) (get m k 0)) ks (keys a)
             Hks Hwf Hincl).
  - unfold keys. rewrite map_map. apply Rsum_ext. intros [k v] Hin. simpl.
    rewrite (get_In a k v 0 Hwf Hin). destruct (Hd k v Hin) as [Hv Hb].
    now apply kl_term_np.
  - intros k _ Hn. rewrite (get_notin a k 0 Hn). apply np_term_zero.
Qed.

End NumpyDivergence.

(** ** Jensen-Shannon divergence *)

Section JensenShannon.
Import CompareCorpora.



Lemma is_distribution_nonneg (d : dict R) :
  is_distribution d -> wf_dict d /\ nonneg d /\ Rsum (values d) <= 1.
Proof.
  intros [Hwf [Hv Hs]]. split; [exact Hwf|]. split.
  - unfold nonneg. eapply Forall_impl; [|exact Hv]. simpl. intros; lra.
  - destruct Hs as [-> | ->]; simpl; lra.
Qed.

Lemma mixture_swap (p q : dict R) (k : string) :
  get (mixture p q) k 0 = 0.5 * (get q k 0 + get p k 0).
Proof. rewrite get_mixture. lra. Qed.

Lemma keys_incl_union_l (a b : list string) : incl a (union a b).
Proof. intros k Hk. apply In_union. now left. Qed.

Lemma keys_incl_union_r (a b : list string) : incl b (union a b).
Proof. intros k Hk. apply In_union. now right. Qed.

(** Both implementations on dictionaries of non-negative values. *)
Lemma js_divergence_nonneg (p q : dict R) :
  wf_dict p -> wf_dict q -> nonneg p -> nonneg q ->
  exists r,
    js_divergence p q = Some r /\
    CompareLanguages.js_divergence p q = r /\
    0 <= r <= 0.5 * (Rsum (values p) + Rsum (values q)).
Proof.
  intros Hp Hq Np Nq. pose proof ln2_pos as H2.
  destruct (kl_mixture_bounds p q (mixture p q) Hp Np Nq (get_mixture p q))
    as [Kp [Ep [Lp Up]]].
  destruct (kl_mixture_bounds q p (mixture p q) Hq Nq Np (mixture_swap p q))
    as [Kq [Eq [Lq Uq]]].
  exists (0.5 * (Kp + Kq)). split; [|split].
  - unfold js_divergence. now rewrite Ep, Eq.
  - rewrite np_js_divergence_keys.
    pose proof (kl_as_key_sum p q (mixture p q) (union (keys p) (keys q))
                  Hp Np Nq (get_mixture p q) (NoDup_union _ _)
                  (keys_incl_union_l _ _)) as Ep'.
    pose proof (kl_as_key_sum q p (mixture p q) (union (keys p) (keys q))
                  Hq Nq Np (mixture_swap p q) (NoDup_union _ _)
                  (keys_incl_union_r _ _)) as Eq'.
    rewrite Ep in Ep'. rewrite Eq in Eq'. inversion Ep'. inversion Eq'.
    f_equal. f_equal; apply Rsum_ext; intros k _; now rewrite get_mixture.
  - split; [|lra].
    assert (0 <= Kp + Kq); [|lra].
    assert (E : (0.5 * Rsum (values p) - 0.5 * Rsum (values q)) / ln 2
                + (0.5 * Rsum (values q) - 0.5 * Rsum (values p)) / ln 2 = 0)
      by (field; lra).
    lra.
Qed.




Lemma example_p_distribution : is_distribution example_p.
Proof.
  unfold is_distribution, example_p. repeat split.
  - unfold wf_dict. simpl. repeat constructor; simpl; intuition discriminate.
  - repeat constructor; simpl; lra.
  - right. simpl. lra.
Qed.














(** [kl] of a dictionary against itself. *)
Lemma kl_fold_self (a b : dict R) (s : R) :
  (forall k v, In (k, v) a -> get b k 0 = v) ->
  fold_left (kl_step b) a (Some s) = Some s.
Proof.
  revert s. induction a as [|[k v] a IH]; intros s H; cbn [fold_left]; [reflexivity|].
  assert (E : kl_step b (Some s) (k, v) = Some s).
  { unfold kl_step, kl_branch_of. rewrite (H k v (or_introl eq_refl)).
    destruct (Req_dec_T v 0) as [|Hv]; [reflexivity|].
    destruct (Req_dec_T v 0); [contradiction|].
    assert (Hq : v / v = 1) by (field; exact Hv).
    rewrite Hq, log2_pos_arg by lra. simpl. rewrite ln_1. f_equal.
    unfold Rdiv. lra. }
  rewrite E. apply IH. intros k' v' Hin. apply H. now right.
Qed.

Lemma js_divergence_self (p : dict R) : wf_dict p -> js_divergence p p = Some 0.
Proof.
  intros Hp. unfold js_divergence, kl.
  rewrite (kl_fold_self p (mixture p p) 0).
  - f_equal. lra.
  - intros k v Hin. rewrite get_mixture, (get_In p k v 0 Hp Hin). lra.
Qed.









End JensenShannon.

(** ** Frequency tables and Shannon entropy *)


Lemma keys_incr (c : dict Z) (k : string) :
  keys (incr c k) = if in_dec string_dec k (keys c) then keys c else keys c ++ [k].
Proof.
  induction c as [|[k' v] c IH]; simpl; [reflexivity|].
  destruct (String.eqb_spec k k') as [E|Hne]; simpl.
  - destruct (string_dec k' k) as [He|Hn]; [reflexivity|].
    exfalso. apply Hn. symmetry. exact E.
  - rewrite IH. destruct (string_dec k' k) as [E|Hn];
      [exfalso; apply Hne; symmetry; exact E|].
    destruct (in_dec string_dec k (keys c)); reflexivity.
Qed.

Lemma incr_frequency_table (c : dict Z) (k : string) :
  frequency_table c -> frequency_table (incr c k).
Proof.
  intros [Hwf Hv]. split.
  - unfold wf_dict in *. rewrite keys_incr.
    destruct (in_dec string_dec k (keys c)) as [_|Hn]; [exact Hwf|].
    apply NoDup_app; [exact Hwf|repeat constructor; intros []|].
    intros x Hx [<-|[]]. contradiction.
  - clear Hwf. induction Hv as [|[k' v] c Hk Hc IH]; simpl.
    + repeat constructor. simpl. lia.
    + simpl in Hk. destruct (String.eqb k k'); constructor; simpl; auto. lia.
Qed.

Lemma Zsum_incr (c : dict Z) (k : string) :
  Zsum (values (incr c k)) = (Zsum (values c) + 1)%Z.
Proof.
  induction c as [|[k' v] c IH]; simpl; [reflexivity|].
  destruct (String.eqb k k'); simpl; [lia|]. rewrite IH. lia.
Qed.

Lemma incr_not_nil (c : dict Z) (k : string) : incr c k <> [].
Proof. destruct c as [|[k' v] c]; simpl; [discriminate|]. destruct (String.eqb k k'); discriminate. Qed.

Lemma fold_incr_frequency_table (tokens : list string) (c : dict Z) :
  frequency_table c -> frequency_table (fold_left incr tokens c).
Proof.
  revert c. induction tokens as [|t ts IH]; simpl; intros c H; [exact H|].
  apply IH. now apply incr_frequency_table.
Qed.

Lemma fold_incr_sum (tokens : list string) (c : dict Z) :
  Zsum (values (fold_left incr tokens c))
  = (Zsum (values c) + Z.of_nat (List.length tokens))%Z.
Proof.
  revert c. induction tokens as [|t ts IH]; intros c; cbn [fold_left List.length].
  - lia.
  - rewrite IH, Zsum_incr. lia.
Qed.

Lemma fold_incr_not_nil (tokens : list string) (c : dict Z) :
  c <> [] -> fold_left incr tokens c <> [].
Proof.
  revert c. induction tokens as [|t ts IH]; simpl; intros c H; [exact H|].
  apply IH. apply incr_not_nil.
Qed.

Lemma Counter_frequency_table (tokens : list string) :
  frequency_table (Counter tokens).
Proof.
  apply fold_incr_frequency_table. split; constructor.
Qed.

(** [sum(T.values()) == len(token_sequence)] *)
Lemma Counter_total (tokens : list string) :
  Zsum (values (Counter tokens)) = Z.of_nat (List.length tokens).
Proof. unfold Counter. rewrite fold_incr_sum. simpl. lia. Qed.

Lemma Counter_not_nil (tokens : list string) : tokens <> [] -> Counter tokens <> [].
Proof.
  destruct tokens as [|t ts]; [contradiction|]. intros _.
  unfold Counter. simpl. apply fold_incr_not_nil. discriminate.
Qed.

(** *** Entropy *)


Lemma Zsum_ge (l : list Z) (v : Z) :
  Forall (fun x => (1 <= x)%Z) l -> In v l -> (v <= Zsum l)%Z.
Proof.
  intros H. assert (Hs : forall l', Forall (fun x => (1 <= x)%Z) l' -> (0 <= Zsum l')%Z).
  { induction 1; simpl; lia. }
  induction H as [|x l Hx Hl IH]; simpl; [contradiction|].
  intros [->|Hin]; [specialize (Hs l Hl); lia|]. specialize (IH Hin). lia.
Qed.

Lemma Zsum_ge_length (l : list Z) :
  Forall (fun x => (1 <= x)%Z) l -> (Z.of_nat (List.length l) <= Zsum l)%Z.
Proof. induction 1; simpl List.length; simpl Zsum; lia. Qed.

Lemma entropy_fold (total : Z) (vs : list Z) (e : R) :
  (0 < total)%Z -> Forall (fun v => (1 <= v)%Z) vs ->
  fold_left (Stats.entropy_step total) vs (Some e)
  = Some (e + Rsum (map (ent_term total) vs)).
Proof.
  intros Ht H. revert e. induction H as [|v vs Hv Hvs IH]; intros e; cbn [fold_left map].
  - f_equal. simpl. lra.
  - assert (Hp : 0 < IZR v / IZR total).
    { apply Rdiv_lt_0_compat; apply IZR_lt; lia. }
    unfold Stats.entropy_step at 2. rewrite (log2_pos_arg _ Hp). cbn [option_map].
    rewrite IH. f_equal. unfold ent_term, Rsum. cbn [fold_right]. lra.
Qed.

Lemma ent_term_nonneg (total v : Z) :
  (1 <= v <= total)%Z -> 0 <= ent_term total v.
Proof.
  intros [Hv Ht]. pose proof ln2_pos as H2. unfold ent_term.
  assert (Hv' : 0 < IZR v) by (apply IZR_lt; lia).
  assert (Ht' : 0 < IZR total) by (apply IZR_lt; lia).
  assert (Hle : IZR v <= IZR total) by (apply IZR_le; lia).
  assert (Hp : 0 < IZR v / IZR total) by (apply Rdiv_lt_0_compat; lra).
  assert (Hp1 : IZR v / IZR total <= 1).
  { apply (Rmult_le_reg_r (IZR total)); [lra|].
    unfold Rdiv. rewrite Rmult_assoc, Rinv_l; lra. }
  pose proof (ln_le_mono _ _ Hp Hp1) as Hl. rewrite ln_1 in Hl.
  assert (Hq : ln (IZR v / IZR total) / ln 2 <= 0).
  { unfold Rdiv at 1.
    assert (0 <= - ln (IZR v / IZR total) * / ln 2).
    { apply Rmult_le_pos; [lra|]. left. now apply Rinv_0_lt_compat. }
    lra. }
  assert (0 <= (IZR v / IZR total) * - (ln (IZR v / IZR total) / ln 2))
    by (apply Rmult_le_pos; lra).
  lra.
Qed.

Lemma ent_term_pos (total v : Z) :
  (1 <= v < total)%Z -> 0 < ent_term total v.
Proof.
  intros [Hv Ht]. pose proof ln2_pos as H2. unfold ent_term.
  assert (Hv' : 0 < IZR v) by (apply IZR_lt; lia).
  assert (Ht' : 0 < IZR total) by (apply IZR_lt; lia).
  assert (Hlt : IZR v < IZR total) by (apply IZR_lt; lia).
  assert (Hp : 0 < IZR v / IZR total) by (apply Rdiv_lt_0_compat; lra).
  assert (Hp1 : IZR v / IZR total < 1).
  { apply (Rmult_lt_reg_r (IZR total)); [lra|].
    unfold Rdiv. rewrite Rmult_assoc, Rinv_l; lra. }
  pose proof (ln_increasing _ _ Hp Hp1) as Hl. rewrite ln_1 in Hl.
  assert (Hq : 0 < - (ln (IZR v / IZR total) / ln 2)).
  { unfold Rdiv at 1.
    assert (0 < - ln (IZR v / IZR total) * / ln 2).
    { apply Rmult_lt_0_compat; [lra|]. now apply Rinv_0_lt_compat. }
    lra. }
  assert (0 < (IZR v / IZR total) * - (ln (IZR v / IZR total) / ln 2))
    by (apply Rmult_lt_0_compat; lra).
  lra.
Qed.

Lemma ent_term_total (total : Z) : (0 < total)%Z -> ent_term total total = 0.
Proof.
  intros Ht. unfold ent_term.
  assert (Ht' : 0 < IZR total) by (apply IZR_lt; lia).
  replace (IZR total / IZR total) with 1 by (field; lra).
  rewrite ln_1. unfold Rdiv. lra.
Qed.

Lemma shannon_entropy_sum (T : dict Z) :
  frequency_table T ->
  Stats.shannon_entropy T
  = Some (Rsum (map (ent_term (Zsum (values T))) (values T))).
Proof.
  intros [_ Hv]. unfold Stats.shannon_entropy.
  assert (Hvs : Forall (fun v => (1 <= v)%Z) (values T)).
  { unfold values. apply Forall_map. exact Hv. }
  destruct (Z.eqb_spec (Zsum (values T)) 0) as [E|Hne].
  - pose proof (Zsum_ge_length _ Hvs) as Hl. rewrite E in Hl.
    destruct T; [reflexivity|]. simpl in Hl. lia.
  - pose proof (Zsum_ge_length _ Hvs) as Hl.
    rewrite entropy_fold; [f_equal; lra| lia |exact Hvs].
Qed.

Lemma entropy_sum_nonneg (total : Z) (vs : list Z) :
  (forall v, In v vs -> (1 <= v <= total)%Z) ->
  0 <= Rsum (map (ent_term total) vs).
Proof.
  intros H. apply Rsum_nonneg. apply Forall_map, Forall_forall.
  intros v Hv. apply ent_term_nonneg. now apply H.
Qed.

(** Claim C8.  The entropy of the empty table is 0; the entropy of any
    frequency table is defined and non-negative; and for the table counted
    from a non-empty token sequence it is 0 exactly when the table has a
    single key. *)
Theorem shannon_entropy_spec :
  Stats.shannon_entropy [] = Some 0 /\
  (forall T, frequency_table T ->
     exists h, Stats.shannon_entropy T = Some h /\ 0 <= h) /\
  (forall tokens, tokens <> [] ->
     exists h, Stats.shannon_entropy (Counter tokens) = Some h /\
               0 <= h /\
               (h = 0 <-> List.length (Counter tokens) = 1%nat)).
Proof.
  assert (Hgen : forall T, frequency_table T ->
            exists h, Stats.shannon_entropy T = Some h /\ 0 <= h /\
                      (T <> [] -> (h = 0 <-> List.length T = 1%nat))).
  { intros T HT. pose proof HT as [_ Hv].
    assert (Hvs : Forall (fun v => (1 <= v)%Z) (values T))
      by (unfold values; apply Forall_map; exact Hv).
    exists (Rsum (map (ent_term (Zsum (values T))) (values T))).
    split; [now apply shannon_entropy_sum|].
    assert (Hb : forall v, In v (values T) -> (1 <= v <= Zsum (values T))%Z).
    { intros v Hin. split; [exact (proj1 (Forall_forall _ _) Hvs v Hin)|].
      now apply Zsum_ge. }
    split; [now apply entropy_sum_nonneg|].
    intros Hne. destruct T as [|[k1 v1] T]; [contradiction|].
    destruct T as [|[k2 v2] T].
    - (* one key *)
      simpl. split; [reflexivity|intros _].
      inversion Hvs; subst. simpl in *. 
      replace (v1 + 0)%Z with v1 by lia. rewrite ent_term_total by lia. lra.
    - (* at least two keys: the first term is already positive *)
      split; [|simpl; discriminate].
      intros H0. exfalso.
      inversion Hvs as [|? ? H1 Hvs']; subst. inversion Hvs' as [|? ? H2 Hvs'']; subst.
      simpl in H1, H2.
      assert (Hrest : (0 <= Zsum (map snd T))%Z).
      { pose proof (Zsum_ge_length _ Hvs''). unfold values in *. lia. }
      remember (Zsum (values ((k1, v1) :: (k2, v2) :: T))) as total eqn:Etot.
      cbn [values map Rsum fold_right Zsum snd] in H0, Etot.
      unfold Zsum in Hrest.
      pose proof (ent_term_pos total v1 ltac:(lia)) as P1.
      pose proof (ent_term_nonneg total v2 ltac:(lia)) as P2.
      assert (P3 : 0 <= fold_right Rplus 0 (map (ent_term total) (map snd T))).
      { apply (entropy_sum_nonneg total (map snd T)). intros v Hin.
        apply Hb. simpl. right. right. exact Hin. }
      lra. }
  split; [reflexivity|]. split.
  - intros T HT. destruct (Hgen T HT) as [h [E [Hh _]]]. now exists h.
  - intros tokens Hne.
    destruct (Hgen (Counter tokens) (Counter_frequency_table tokens)) as [h [E [Hh Hz]]].
    exists h. repeat split; try assumption; apply Hz; now apply Counter_not_nil.
Qed.

(** Claim C8 on the tokens daiin, qokedy, daiin: two keys, so a positive
    entropy. *)
Lemma shannon_entropy_witness :
  exists h, Stats.shannon_entropy (Counter ["daiin"; "qokedy"; "daiin"]) = Some h /\
            0 <= h /\ h <> 0.
Proof.
  destruct (proj2 (proj2 shannon_entropy_spec) ["daiin"; "qokedy"; "daiin"])
    as [h [E [Hh Hz]]]; [discriminate|].
  exists h. repeat split; try assumption.
  intros H0. apply Hz in H0. vm_compute in H0. discriminate.
Defined.

(** ** The corpus comparator *)

Section Comparator.
Import CompareCorpora.

Lemma counter_to_prob_keys (c : dict Z) :
  keys (counter_to_prob c) = keys c \/ counter_to_prob c = [].
Proof.
  unfold counter_to_prob. destruct (Req_dec_T _ 0); [now right|left].
  unfold keys. rewrite map_map. reflexivity.
Qed.

Lemma counter_to_prob_wf (c : dict Z) :
  frequency_table c -> wf_dict (counter_to_prob c) /\ nonneg (counter_to_prob c).
Proof.
  intros [Hwf Hv]. split.
  - destruct (counter_to_prob_keys c) as [E|E].
    + unfold wf_dict. now rewrite E.
    + rewrite E. constructor.
  - unfold counter_to_prob. destruct (Req_dec_T _ 0) as [_|Hne]; [constructor|].
    assert (Hvs : Forall (fun v => (1 <= v)%Z) (values c))
      by (unfold values; apply Forall_map; exact Hv).
    pose proof (Zsum_ge_length _ Hvs) as Hl.
    assert (Ht : 0 < IZR (Zsum (values c))).
    { apply IZR_lt. destruct (Z.eq_dec (Zsum (values c)) 0) as [E|E]; [|lia].
      exfalso. apply Hne. now rewrite E. }
    unfold nonneg. apply Forall_map, Forall_forall. intros [k v] Hin. simpl.
    pose proof (proj1 (Forall_forall _ _) Hv (k, v) Hin) as Hk. simpl in Hk.
    left. apply Rdiv_lt_0_compat; [apply IZR_lt; lia|exact Ht].
Qed.


Lemma js_divergence_counters (c1 c2 : dict Z) :
  frequency_table c1 -> frequency_table c2 ->
  exists r, js_divergence (counter_to_prob c1) (counter_to_prob c2) = Some r.
Proof.
  intros H1 H2.
  destruct (counter_to_prob_wf c1 H1) as [W1 N1].
  destruct (counter_to_prob_wf c2 H2) as [W2 N2].
  destruct (js_divergence_nonneg _ _ W1 W2 N1 N2) as [r [E _]]. now exists r.
Qed.

Lemma compare_one_total (v_uni v_bi : dict Z) (c : corpus_file) :
  frequency_table v_uni -> frequency_table v_bi ->
  exists d, compare_one (counter_to_prob v_uni) (counter_to_prob v_bi) c = Some d /\
            corpus d = stem c /\
            js_divergence (counter_to_prob v_uni)
                          (counter_to_prob (Counter (c_tokens c)))
              = Some (jsd_unigram d).
Proof.
  intros Hu Hb. unfold compare_one.
  destruct (js_divergence_counters v_uni (Counter (c_tokens c)) Hu
              (Counter_frequency_table _)) as [r1 E1].
  destruct (js_divergence_counters v_bi (bigram_counter (c_tokens c)) Hb
              (Counter_frequency_table _)) as [r2 E2].
  rewrite E1, E2. eexists. split; [reflexivity|]. split; reflexivity.
Qed.

Lemma collect_results_total (v_uni v_bi : dict Z) (files : list corpus_file) :
  frequency_table v_uni -> frequency_table v_bi ->
  exists results,
    collect_results (counter_to_prob v_uni) (counter_to_prob v_bi) files
      = Some results /\
    Forall2 (fun d c =>
               corpus d = stem c /\
               js_divergence (counter_to_prob v_uni)
                             (counter_to_prob (Counter (c_tokens c)))
                 = Some (jsd_unigram d))
            results files.
Proof.
  intros Hu Hb. induction files as [|c files IH]; simpl.
  - exists []. split; [reflexivity|constructor].
  - destruct (compare_one_total v_uni v_bi c Hu Hb) as [d [E [Hc Hj]]].
    destruct IH as [results [Er Hr]].
    rewrite E, Er. exists (d :: results). split; [reflexivity|].
    constructor; [now split|exact Hr].
Qed.

(** *** Sorting by a key *)

Lemma insert_by_perm {A} (key : A -> R) (x : A) (l : list A) :
  Permutation (x :: l) (insert_by key x l).
Proof.
  induction l as [|y l IH]; simpl; [reflexivity|].
  destruct (Rle_dec (key x) (key y)); [reflexivity|].
  rewrite perm_swap. now apply perm_skip.
Qed.

Lemma sorted_by_perm {A} (key : A -> R) (l : list A) :
  Permutation l (sorted_by key l).
Proof.
  induction l as [|x l IH]; simpl; [reflexivity|].
  rewrite <- insert_by_perm. now apply perm_skip.
Qed.

Lemma insert_by_sorted {A} (key : A -> R) (x : A) (l : list A) :
  StronglySorted (fun a b => key a <= key b) l ->
  StronglySorted (fun a b => key a <= key b) (insert_by key x l).
Proof.
  induction 1 as [|y l Hl IH Hy]; simpl.
  - repeat constructor.
  - destruct (Rle_dec (key x) (key y)) as [Hle|Hgt].
    + constructor; [now constructor|].
      constructor; [exact Hle|].
      eapply Forall_impl; [|exact Hy]. simpl. intros; lra.
    + constructor; [exact IH|].
      apply (Permutation_Forall (insert_by_perm key x l)).
      constructor; [lra|exact Hy].
Qed.

Lemma sorted_by_sorted {A} (key : A -> R) (l : list A) :
  StronglySorted (fun a b => key a <= key b) (sorted_by key l).
Proof.
  induction l as [|x l IH]; simpl; [constructor|]. now apply insert_by_sorted.
Qed.

(** Claim C5.  [compare] always completes; it computes one result per corpus
    file, whose unigram JSD is the divergence between the manuscript and
    that corpus; and the table of summary.md lists exactly these results in
    ascending order of unigram JSD, so that the corpus of lowest JSD comes
    first. *)
Theorem compare_ranking (v_tokens : list string) (files : list corpus_file) :
  exists out,
    compare v_tokens files = Some out /\
    Forall2 (fun d c =>
               corpus d = stem c /\
               js_divergence (counter_to_prob (Counter v_tokens))
                             (counter_to_prob (Counter (c_tokens c)))
                 = Some (jsd_unigram d))
            (csv_rows out) files /\
    Permutation (csv_rows out) (md_rows out) /\
    StronglySorted (fun a b => jsd_unigram a <= jsd_unigram b) (md_rows out).
Proof.
  unfold compare.
  destruct (collect_results_total (Counter v_tokens) (bigram_counter v_tokens) files
              (Counter_frequency_table _) (Counter_frequency_table _))
    as [results [E Hr]].
  rewrite E. eexists. split; [reflexivity|]. simpl.
  split; [exact Hr|]. split; [apply sorted_by_perm|apply sorted_by_sorted].
Qed.

End Comparator.

(** ** The Zipf slope *)

Section Zipf.
Import ReportMetrics.



(** *** Sorting the counts *)

Lemma insert_desc_perm (x : Z) (l : list Z) : Permutation (x :: l) (insert_desc x l).
Proof.
  induction l as [|y l IH]; simpl; [reflexivity|].
  destruct (y <=? x)%Z; [reflexivity|].
  rewrite perm_swap. now apply perm_skip.
Qed.

Lemma sorted_desc_perm (l : list Z) : Permutation l (sorted_desc l).
Proof.
  induction l as [|x l IH]; simpl; [reflexivity|].
  rewrite <- insert_desc_perm. now apply perm_skip.
Qed.

Lemma insert_desc_sorted (x : Z) (l : list Z) :
  StronglySorted Z.ge l -> StronglySorted Z.ge (insert_desc x l).
Proof.
  induction 1 as [|y l Hl IH Hy]; simpl.
  - repeat constructor.
  - destruct (Z.leb_spec y x) as [Hle|Hgt].
    + constructor; [now constructor|].
      constructor; [lia|]. eapply Forall_impl; [|exact Hy]. simpl. intros; lia.
    + constructor; [exact IH|].
      apply (Permutation_Forall (insert_desc_perm x l)).
      constructor; [lia|exact Hy].
Qed.

Lemma sorted_desc_sorted (l : list Z) : StronglySorted Z.ge (sorted_desc l).
Proof.
  induction l as [|x l IH]; simpl; [constructor|]. now apply insert_desc_sorted.
Qed.

Lemma sorted_desc_length (l : list Z) : List.length (sorted_desc l) = List.length l.
Proof. symmetry. apply Permutation_length, sorted_desc_perm. Qed.

(** *** Least squares *)

Lemma sse_expand (x y : list R) (a b : R) :
  List.length x = List.length y ->
  sse x y a b
  = Rsum (map sq y) - 2 * a * Rsum y
    - 2 * b * Rsum (map (fun uv => fst uv * snd uv) (combine x y))
    + INR (List.length x) * (a * a) + 2 * a * b * Rsum x
    + b * b * Rsum (map sq x).
Proof.
  unfold sse, sq. revert y. induction x as [|u x IH]; intros [|v y] H; try discriminate.
  - simpl. lra.
  - injection H as H. specialize (IH y H).
    cbn [combine map Rsum fold_right fst snd List.length] in *.
    rewrite S_INR. unfold Rsum in *. rewrite IH. ring.
Qed.

Lemma spread_sum (a : R) (l : list R) :
  Rsum (map (fun u => sq (a - u)) l)
  = INR (List.length l) * (a * a) - 2 * a * Rsum l + Rsum (map sq l).
Proof.
  unfold sq. induction l as [|u l IH]; [simpl; lra|].
  cbn [map Rsum fold_right List.length]. rewrite S_INR.
  unfold Rsum in *. rewrite IH. ring.
Qed.


Lemma spread_cons (a : R) (l : list R) :
  spread (a :: l) = spread l + Rsum (map (fun u => sq (a - u)) l).
Proof.
  rewrite spread_sum. unfold spread, sq.
  cbn [map Rsum fold_right List.length]. rewrite S_INR. unfold Rsum. ring.
Qed.

Lemma spread_terms_nonneg (a : R) (l : list R) :
  0 <= Rsum (map (fun u => sq (a - u)) l).
Proof.
  apply Rsum_nonneg, Forall_map, Forall_forall. intros u _. cbv beta. unfold sq.
  pose proof (Rle_0_sqr (a - u)) as H. unfold Rsqr in H. exact H.
Qed.

Lemma spread_nonneg (l : list R) : 0 <= spread l.
Proof.
  induction l as [|a l IH]; [unfold spread; simpl; lra|].
  rewrite spread_cons. pose proof (spread_terms_nonneg a l). lra.
Qed.

Lemma spread_pos (a b : R) (l : list R) : a <> b -> 0 < spread (a :: b :: l).
Proof.
  intros Hne. rewrite spread_cons.
  pose proof (spread_nonneg (b :: l)).
  cbn [map Rsum fold_right].
  pose proof (spread_terms_nonneg a l). unfold Rsum in *.
  assert (0 < sq (a - b)) by (unfold sq; nra). lra.
Qed.

(** When the abscissas are not all equal, the coefficients of [polyfit1]
    minimise the residual sum of squares. *)
Lemma polyfit1_least_squares (x y : list R) :
  List.length x = List.length y ->
  0 < spread x ->
  forall a' b' : R,
    sse x y (snd (polyfit1 x y)) (fst (polyfit1 x y)) <= sse x y a' b'.
Proof.
  intros Hlen HD a' b'.
  assert (Hn : 0 < INR (List.length x)).
  { destruct x; [unfold spread in HD; simpl in HD; lra|].
    apply lt_0_INR. simpl. lia. }
  rewrite !sse_expand by exact Hlen.
  unfold polyfit1, spread, sq in *. cbn [fst snd].
  set (n := INR (List.length x)) in *.
  set (sx := Rsum x) in *. set (sy := Rsum y) in *.
  set (sxx := Rsum (map (fun u => u * u) x)) in *.
  set (syy := Rsum (map (fun u => u * u) y)) in *.
  set (sxy := Rsum (map (fun uv => fst uv * snd uv) (combine x y))) in *.
  set (D := n * sxx - sx * sx) in *.
  set (b := (n * sxy - sx * sy) / D).
  set (a := (sy - b * sx) / n).
  assert (E1 : n * a + sx * b = sy) by (unfold a; field; lra).
  assert (E2 : sx * a + sxx * b = sxy).
  { unfold a, b, D. unfold D in HD. field. split; lra. }
  assert (Hq : n * ((syy - 2 * a' * sy - 2 * b' * sxy + n * (a' * a')
                     + 2 * a' * b' * sx + b' * b' * sxx)
                    - (syy - 2 * a * sy - 2 * b * sxy + n * (a * a)
                       + 2 * a * b * sx + b * b * sxx))
               = (n * (a' - a) + sx * (b' - b)) * (n * (a' - a) + sx * (b' - b))
                 + D * ((b' - b) * (b' - b))).
  { rewrite <- E1, <- E2. unfold D. ring. }
  assert (Hr : 0 <= (n * (a' - a) + sx * (b' - b)) * (n * (a' - a) + sx * (b' - b))
                    + D * ((b' - b) * (b' - b))).
  { assert (H1 : 0 <= (b' - b) * (b' - b)) by apply Rle_0_sqr.
    assert (H2 : 0 <= D * ((b' - b) * (b' - b)))
      by (apply Rmult_le_pos; [left; exact HD|exact H1]).
    assert (H3 : 0 <= (n * (a' - a) + sx * (b' - b)) * (n * (a' - a) + sx * (b' - b)))
      by apply Rle_0_sqr.
    lra. }
  rewrite <- Hq in Hr.
  assert (0 <= (syy - 2 * a' * sy - 2 * b' * sxy + n * (a' * a')
                + 2 * a' * b' * sx + b' * b' * sxx)
               - (syy - 2 * a * sy - 2 * b * sxy + n * (a * a)
                  + 2 * a * b * sx + b * b * sxx)).
  { apply (Rmult_le_reg_l n); [exact Hn|]. lra. }
  lra.
Qed.

(** *** The slope *)

Lemma firstn_seq_min (n start len : nat) :
  firstn n (seq start len) = seq start (Nat.min n len).
Proof.
  revert start len. induction n as [|n IH]; intros start [|len]; simpl;
    try reflexivity.
  now rewrite IH.
Qed.

Lemma zipf_slope_unfold (counter : dict Z) :
  zipf_slope counter =
  if (List.length counter <? 3)%nat then None
  else Some (fst (polyfit1 (zipf_x counter) (zipf_y counter))).
Proof.
  assert (Hv : List.length (values counter) = List.length counter)
    by (unfold values; apply length_map).
  assert (Hs : List.length (sorted_desc (values counter)) = List.length counter)
    by (rewrite sorted_desc_length; exact Hv).
  unfold zipf_slope, zipf_x, zipf_y.
  rewrite !length_map, !Hs.
  destruct (List.length counter <? 3)%nat; [reflexivity|].
  rewrite !firstn_map, !map_map, firstn_seq_min.
  replace (Nat.min (Nat.min (List.length counter) 1000) (List.length counter))
    with (Nat.min (List.length counter) 1000) by lia.
  reflexivity.
Qed.

Lemma zipf_points_length (counter : dict Z) :
  List.length (zipf_x counter) = List.length (zipf_y counter).
Proof.
  unfold zipf_x, zipf_y.
  rewrite !length_map, length_seq, length_firstn, sorted_desc_length.
  unfold values. rewrite length_map. lia.
Qed.

Lemma ln10_pos : 0 < ln 10.
Proof. rewrite <- ln_1. apply ln_increasing; lra. Qed.

Lemma zipf_x_spread (counter : dict Z) :
  (2 <= List.length counter)%nat -> 0 < spread (zipf_x counter).
Proof.
  intros Hlen. unfold zipf_x.
  destruct (Nat.min (List.length counter) 1000) as [|[|N]] eqn:E; try lia.
  cbn [seq map]. apply spread_pos.
  unfold log10. simpl INR. rewrite ln_1.
  pose proof ln10_pos as H10. pose proof ln2_pos as H2.
  replace (1 + 1) with 2 by lra.
  intros H. unfold Rdiv in H. rewrite Rmult_0_l in H.
  assert (0 < ln 2 * / ln 10)
    by (apply Rmult_lt_0_compat; [exact H2|now apply Rinv_0_lt_compat]).
  lra.
Qed.

(** Claim C4, as amended.  The counts are sorted in descending order; the
    result is undefined exactly when the table has fewer than 3 entries;
    otherwise it is the slope of a least-squares line through the points
    (log10 rank, log10 count) of the at most 1000 largest counts. *)
Theorem zipf_slope_spec (counter : dict Z) :
  Permutation (values counter) (sorted_desc (values counter)) /\
  StronglySorted Z.ge (sorted_desc (values counter)) /\
  match zipf_slope counter with
  | None => (List.length counter < 3)%nat
  | Some b =>
      (3 <= List.length counter)%nat /\
      exists a, forall a' b' : R,
        sse (zipf_x counter) (zipf_y counter) a b
        <= sse (zipf_x counter) (zipf_y counter) a' b'
  end.
Proof.
  split; [apply sorted_desc_perm|]. split; [apply sorted_desc_sorted|].
  rewrite zipf_slope_unfold.
  destruct (Nat.ltb_spec (List.length counter) 3) as [Hlt|Hge]; [exact Hlt|].
  split; [exact Hge|].
  exists (snd (polyfit1 (zipf_x counter) (zipf_y counter))).
  apply polyfit1_least_squares.
  - apply zipf_points_length.
  - apply zipf_x_spread. lia.
Qed.

(** A flat cloud of points is fitted by a line of slope 0. *)
Lemma polyfit1_flat (x y : list R) :
  Forall (fun v => v = 0) y -> fst (polyfit1 x y) = 0.
Proof.
  intros Hy.
  assert (Hsy : Rsum y = 0) by (induction Hy; simpl; lra).
  assert (Hsxy : Rsum (map (fun uv => fst uv * snd uv) (combine x y)) = 0).
  { clear Hsy. revert x. induction Hy as [|v y Hv Hy IH]; intros [|u x];
      simpl; try reflexivity.
    rewrite IH, Hv. lra. }
  unfold polyfit1. cbn [fst]. rewrite Hsy, Hsxy.
  unfold Rdiv. rewrite !Rmult_0_r, Rminus_diag. apply Rmult_0_l.
Qed.

(** Claim C4 as stated fails: three keys that share one count have a single
    distinct frequency value, and yet a number comes back, the slope 0 of a
    flat line. *)
Lemma zipf_slope_counterexample :
  distinct_frequency_values [("a", 1%Z); ("b", 1%Z); ("c", 1%Z)] = 1%nat /\
  zipf_slope [("a", 1%Z); ("b", 1%Z); ("c", 1%Z)] = Some 0.
Proof.
  split; [reflexivity|].
  rewrite zipf_slope_unfold. cbn [List.length Nat.ltb Nat.leb].
  f_equal. apply polyfit1_flat.
  change (zipf_y [("a", 1%Z); ("b", 1%Z); ("c", 1%Z)])
    with (map (fun f => log10 (IZR f)) [1%Z; 1%Z; 1%Z]).
  assert (E : log10 1 = 0) by (unfold log10; rewrite ln_1; unfold Rdiv; lra).
  cbn [map]. rewrite E. repeat constructor.
Qed.

End Zipf.

(** ** The tokenizer *)

Section TokenizerFacts.
Import Tokenizer.

Lemma chars_app (s1 s2 : string) :
  list_ascii_of_string (s1 ++ s2) = list_ascii_of_string s1 ++ list_ascii_of_string s2.
Proof. induction s1 as [|c s1 IH]; simpl; [reflexivity|]. now rewrite IH. Qed.

Lemma string_of_chars_nil (l : list ascii) :
  string_of_list_ascii l = EmptyString -> l = [].
Proof. destruct l; simpl; [reflexivity|discriminate]. Qed.

Lemma scan_app_sep (cur l1 : list ascii) (c : ascii) (l2 : list ascii) :
  is_token_char c = false ->
  scan cur (l1 ++ c :: l2) = scan cur l1 ++ scan [] l2.
Proof.
  intros Hc. revert cur. induction l1 as [|a l1 IH]; intros cur; simpl.
  - now rewrite Hc.
  - destruct (is_token_char a); [apply IH|].
    rewrite IH. now rewrite app_assoc.
Qed.

Lemma scan_run (cur run : list ascii) :
  forallb is_token_char run = true -> scan cur run = flush (cur ++ run).
Proof.
  revert cur. induction run as [|a run IH]; intros cur H; simpl.
  - now rewrite app_nil_r.
  - simpl in H. apply andb_true_iff in H. destruct H as [Ha Hr].
    rewrite Ha, IH by exact Hr. now rewrite <- app_assoc.
Qed.

(** Every match is a non-empty run of characters that satisfy whatever the
    scanned text satisfies, and that are token characters. *)
Lemma scan_tokens (P : ascii -> bool) (cur l : list ascii) :
  forallb P cur = true -> forallb is_token_char cur = true ->
  forallb P l = true ->
  Forall (fun t => t <> EmptyString /\
                   forallb P (list_ascii_of_string t) = true /\
                   forallb is_token_char (list_ascii_of_string t) = true)
         (scan cur l).
Proof.
  assert (Hflush : forall cur,
    forallb P cur = true -> forallb is_token_char cur = true ->
    Forall (fun t => t <> EmptyString /\
                     forallb P (list_ascii_of_string t) = true /\
                     forallb is_token_char (list_ascii_of_string t) = true)
           (flush cur)).
  { intros [|c cur'] HP HT; cbn [flush]; [constructor|].
    constructor; [|constructor].
    rewrite list_ascii_of_string_of_list_ascii. repeat split; try assumption.
    simpl. discriminate. }
  revert cur. induction l as [|a l IH]; intros cur HP HT Hl; simpl.
  - now apply Hflush.
  - simpl in Hl. apply andb_true_iff in Hl. destruct Hl as [Ha Hl].
    destruct (is_token_char a) eqn:Ea.
    + apply IH; [| |exact Hl]; rewrite forallb_app; simpl;
        rewrite ?HP, ?HT, ?Ha, ?Ea; reflexivity.
    + apply Forall_app. split; [now apply Hflush|]. now apply IH.
Qed.

Lemma lower_char_not_upper (c : ascii) : is_upper (lower_char c) = false.
Proof.
  unfold lower_char. destruct (is_upper c) eqn:E; [|exact E].
  unfold is_upper, in_range in *.
  apply andb_true_iff in E. destruct E as [E1 E2].
  apply Nat.leb_le in E1, E2.
  rewrite nat_ascii_embedding by lia.
  apply andb_false_iff. right. apply Nat.leb_gt. lia.
Qed.

Lemma token_char_not_upper (c : ascii) :
  is_token_char c = true -> is_upper c = false -> is_word_char c = true.
Proof.
  unfold is_token_char, is_word_char. intros H Hu. rewrite Hu in H.
  now rewrite orb_false_r in H.
Qed.

Lemma word_char_token (c : ascii) : is_word_char c = true -> is_token_char c = true.
Proof.
  unfold is_token_char, is_word_char. intros H.
  apply orb_true_iff in H. destruct H as [H|H]; rewrite H.
  - reflexivity.
  - apply orb_true_r.
Qed.

Lemma word_char_not_upper (c : ascii) : is_word_char c = true -> is_upper c = false.
Proof.
  unfold is_word_char, is_lower, is_digit, is_upper, in_range. intros H.
  apply orb_true_iff in H.
  destruct H as [H|H]; apply andb_true_iff in H; destruct H as [H1 H2];
    apply Nat.leb_le in H1, H2; apply andb_false_iff.
  - right. apply Nat.leb_gt. lia.
  - left. apply Nat.leb_gt. lia.
Qed.

Lemma tokenize_findall (text : string) : tokenize text = findall (lower text).
Proof.
  unfold tokenize. destruct (String.eqb_spec text EmptyString) as [->|_]; reflexivity.
Qed.

Lemma chars_lower (s : string) :
  list_ascii_of_string (lower s) = map lower_char (list_ascii_of_string s).
Proof. unfold lower. apply list_ascii_of_string_of_list_ascii. Qed.

(** Property X1.  Every token [tokenize] returns is non-empty and made
    only of lower-case letters and digits. *)
Theorem tokenize_words (text : string) : Forall word (tokenize text).
Proof.
  rewrite tokenize_findall. unfold findall. rewrite chars_lower.
  pose proof (scan_tokens (fun c => negb (is_upper c)) []
                (map lower_char (list_ascii_of_string text)) eq_refl eq_refl) as H.
  assert (Hl : forallb (fun c => negb (is_upper c))
                 (map lower_char (list_ascii_of_string text)) = true).
  { apply forallb_forall. intros c Hc. apply in_map_iff in Hc.
    destruct Hc as [c0 [<- _]]. now rewrite lower_char_not_upper. }
  specialize (H Hl). eapply Forall_impl; [|exact H].
  intros t [Hne [Hu Ht]]. split; [exact Hne|].
  apply forallb_forall. intros c Hc.
  apply token_char_not_upper.
  - exact (proj1 (forallb_forall _ _) Ht c Hc).
  - apply negb_true_iff. exact (proj1 (forallb_forall _ _) Hu c Hc).
Qed.

Lemma lower_char_id (c : ascii) : is_upper c = false -> lower_char c = c.
Proof. unfold lower_char. now intros ->. Qed.

Lemma map_lower_id (l : list ascii) :
  forallb (fun c => negb (is_upper c)) l = true -> map lower_char l = l.
Proof.
  induction l as [|c l IH]; simpl; [reflexivity|]. intros H.
  apply andb_true_iff in H. destruct H as [Hc Hl].
  rewrite IH by exact Hl. rewrite lower_char_id; [reflexivity|].
  now apply negb_true_iff.
Qed.

Lemma findall_join (ts : list string) :
  Forall word ts -> scan [] (list_ascii_of_string (join " " ts)) = ts.
Proof.
  induction 1 as [|t ts [Hne Ht] Hts IH]; [reflexivity|].
  assert (Hrun : scan [] (list_ascii_of_string t) = [t]).
  { rewrite scan_run.
    - cbn [app]. destruct (list_ascii_of_string t) eqn:E.
      + exfalso. apply Hne. rewrite <- (string_of_list_ascii_of_string t), E. reflexivity.
      + cbn [flush]. rewrite <- E. now rewrite string_of_list_ascii_of_string.
    - apply forallb_forall. intros c Hc. apply word_char_token.
      exact (proj1 (forallb_forall _ _) Ht c Hc). }
  destruct ts as [|t' ts']; [exact Hrun|].
  change (join " " (t :: t' :: ts')) with (t ++ " " ++ join " " (t' :: ts'))%string.
  rewrite !chars_app. cbn [list_ascii_of_string app].
  rewrite scan_app_sep by reflexivity. rewrite Hrun, IH. reflexivity.
Qed.

Lemma join_not_upper (ts : list string) :
  Forall word ts ->
  forallb (fun c => negb (is_upper c)) (list_ascii_of_string (join " " ts)) = true.
Proof.
  induction 1 as [|t ts [Hne Ht] Hts IH]; [reflexivity|].
  assert (Hn : forallb (fun c => negb (is_upper c)) (list_ascii_of_string t) = true).
  { apply forallb_forall. intros c Hc. apply negb_true_iff, word_char_not_upper.
    exact (proj1 (forallb_forall _ _) Ht c Hc). }
  destruct ts as [|t' ts']; [exact Hn|].
  change (join " " (t :: t' :: ts')) with (t ++ " " ++ join " " (t' :: ts'))%string.
  rewrite !chars_app, !forallb_app. cbn [list_ascii_of_string].
  rewrite Hn, IH. reflexivity.
Qed.

(** Property X2.  Joining well-formed tokens with single spaces and
    tokenizing the result gives the tokens back. *)
Theorem tokenize_join (ts : list string) :
  Forall word ts -> tokenize (join " " ts) = ts.
Proof.
  intros H. rewrite tokenize_findall. unfold findall.
  rewrite chars_lower, (map_lower_id _ (join_not_upper ts H)).
  now apply findall_join.
Qed.

Lemma tokenize_join_witness :
  tokenize (join " " ["daiin"; "qokedy"; "x9"]) = ["daiin"; "qokedy"; "x9"].
Proof.
  apply tokenize_join. repeat constructor; discriminate.
Defined.

(** Property X3.  Tokenizing two texts joined by one separator character
    (a space, a newline, punctuation) gives the tokens of the first followed
    by the tokens of the second: tokenizing line by line and tokenizing the
    whole text agree. *)
Theorem tokenize_separated (s1 s2 : string) (c : ascii) :
  is_token_char c = false ->
  tokenize (s1 ++ String c s2)%string = tokenize s1 ++ tokenize s2.
Proof.
  intros Hc. rewrite !tokenize_findall. unfold findall.
  rewrite !chars_lower, chars_app. cbn [list_ascii_of_string].
  rewrite map_app. cbn [map].
  assert (Hu : is_upper c = false).
  { unfold is_token_char in Hc. apply orb_false_iff in Hc. destruct Hc as [Hc _].
    apply orb_false_iff in Hc. tauto. }
  rewrite (lower_char_id c Hu). now apply scan_app_sep.
Qed.

Lemma tokenize_separated_witness :
  tokenize ("daiin qokedy" ++ String "010"%char "chedy")%string
  = tokenize "daiin qokedy" ++ tokenize "chedy".
Proof. apply tokenize_separated. reflexivity. Defined.

(** Property X4.  Tokenization ignores case: lowering the text first
    changes nothing. *)
Theorem tokenize_case_insensitive (text : string) :
  tokenize (lower text) = tokenize text.
Proof.
  rewrite !tokenize_findall. f_equal.
  unfold lower at 1. rewrite chars_lower. unfold lower. f_equal.
  apply map_lower_id. apply forallb_forall. intros c Hc.
  apply in_map_iff in Hc. destruct Hc as [c0 [<- _]].
  now rewrite lower_char_not_upper.
Qed.

End TokenizerFacts.

(** ** N-gram windows and normalisation *)

(** Property X5.  For an order [n >= 1] the n-grams are the windows of
    [n] consecutive tokens, one per start position [0 .. len - n], each of
    exactly [n] tokens; the guarded and the unguarded copy of [ngrams]
    agree. *)
Theorem ngrams_windows (tokens : list string) (n : nat) :
  (1 <= n)%nat ->
  Stats.ngrams tokens (Z.of_nat n)
    = map (fun i => firstn n (skipn i tokens))
          (seq 0 (S (List.length tokens) - n)) /\
  CompareCorpora.ngrams tokens (Z.of_nat n) = Stats.ngrams tokens (Z.of_nat n) /\
  Forall (fun g => List.length g = n) (Stats.ngrams tokens (Z.of_nat n)).
Proof.
  intros Hn.
  assert (Hg : Stats.ngrams tokens (Z.of_nat n)
               = CompareCorpora.ngrams tokens (Z.of_nat n)).
  { unfold Stats.ngrams. destruct (Z.leb_spec (Z.of_nat n) 0); [lia|reflexivity]. }
  assert (E : CompareCorpora.ngrams tokens (Z.of_nat n)
              = map (fun i => firstn n (skipn i tokens))
                    (seq 0 (S (List.length tokens) - n))).
  { unfold CompareCorpora.ngrams, range.
    replace (Z.to_nat (Z.of_nat (List.length tokens) - Z.of_nat n + 1))
      with (S (List.length tokens) - n)%nat by lia.
    rewrite map_map. apply map_ext. intros i. apply slice_firstn_skipn. }
  rewrite Hg, E. split; [reflexivity|]. split; [reflexivity|].
  apply Forall_forall. intros g Hin. apply in_map_iff in Hin.
  destruct Hin as [i [<- Hi]]. apply in_seq in Hi.
  rewrite length_firstn, length_skipn. lia.
Qed.

Lemma ngrams_windows_witness :
  Stats.ngrams ["a"; "b"; "c"] 2 = [["a"; "b"]; ["b"; "c"]].
Proof.
  exact (proj1 (ngrams_windows ["a"; "b"; "c"] 2 (le_S _ _ (le_n 1)))).
Defined.

Section Normalisation.
Import CompareCorpora.




(** Property X7.  [normalize_counter] of compare_languages.py computes
    the distribution [counter_to_prob] of compare_corpora.py computes, and
    returns the total of the counts next to it. *)
Theorem normalize_counter_agrees (c : dict Z) :
  fst (CompareLanguages.normalize_counter c) = counter_to_prob c /\
  snd (CompareLanguages.normalize_counter c) = Zsum (values c).
Proof.
  unfold CompareLanguages.normalize_counter, counter_to_prob.
  destruct (Z.eqb_spec (Zsum (values c)) 0) as [E|Hne]; simpl.
  - rewrite E. destruct (Req_dec_T 0 0) as [_|H]; [now split|lra].
  - destruct (Req_dec_T (IZR (Zsum (values c))) 0) as [E|_]; [|now split].
    apply eq_IZR in E. contradiction.
Qed.

End Normalisation.

(** ** Most common entries and top-k overlap *)

Lemma insert_count_perm (x : string * Z) (l : list (string * Z)) :
  Permutation (x :: l) (insert_count x l).
Proof.
  induction l as [|y l IH]; simpl; [reflexivity|].
  destruct (snd y <=? snd x)%Z; [reflexivity|].
  rewrite perm_swap. now apply perm_skip.
Qed.

Lemma by_count_perm (c : dict Z) : Permutation c (by_count c).
Proof.
  induction c as [|x c IH]; simpl; [reflexivity|].
  rewrite <- insert_count_perm. now apply perm_skip.
Qed.

Lemma insert_count_sorted (x : string * Z) (l : list (string * Z)) :
  StronglySorted (fun a b => (snd b <= snd a)%Z) l ->
  StronglySorted (fun a b => (snd b <= snd a)%Z) (insert_count x l).
Proof.
  induction 1 as [|y l Hl IH Hy]; simpl.
  - repeat constructor.
  - destruct (Z.leb_spec (snd y) (snd x)) as [Hle|Hgt].
    + constructor; [now constructor|].
      constructor; [exact Hle|]. eapply Forall_impl; [|exact Hy]. simpl. intros; lia.
    + constructor; [exact IH|].
      apply (Permutation_Forall (insert_count_perm x l)).
      constructor; [lia|exact Hy].
Qed.

Lemma by_count_sorted (c : dict Z) :
  StronglySorted (fun a b => (snd b <= snd a)%Z) (by_count c).
Proof.
  induction c as [|x c IH]; simpl; [constructor|]. now apply insert_count_sorted.
Qed.

(** Entries of one count keep their relative order. *)
Lemma insert_count_stable (v : Z) (x : string * Z) (l : list (string * Z)) :
  filter (fun kv => (snd kv =? v)%Z) (insert_count x l)
  = filter (fun kv => (snd kv =? v)%Z) (x :: l).
Proof.
  induction l as [|y l IH]; [reflexivity|]. cbn [insert_count].
  destruct (Z.leb_spec (snd y) (snd x)) as [Hle|Hgt]; [reflexivity|].
  cbn [filter] in *. rewrite IH.
  destruct (Z.eqb_spec (snd y) v) as [Ey|Ny]; [|reflexivity].
  destruct (Z.eqb_spec (snd x) v) as [Ex|Nx]; [lia|reflexivity].
Qed.

Lemma by_count_stable (v : Z) (c : dict Z) :
  filter (fun kv => (snd kv =? v)%Z) (by_count c)
  = filter (fun kv => (snd kv =? v)%Z) c.
Proof.
  induction c as [|x c IH]; [reflexivity|]. cbn [by_count fold_right].
  fold (by_count c). rewrite insert_count_stable. cbn [filter]. now rewrite IH.
Qed.

(** Property X10.  [most_common(n)] returns the first [n] entries of a
    rearrangement of the counter that is sorted by count, highest first, and
    keeps entries of equal count in insertion order; it returns
    [min(n, len)] entries, none for [n <= 0], and no entry it leaves out has
    a higher count than one it returns. *)
Theorem most_common_spec (c : dict Z) (n : Z) :
  exists rest,
    Permutation (most_common c n ++ rest) c /\
    StronglySorted (fun a b => (snd b <= snd a)%Z) (most_common c n ++ rest) /\
    (forall v, filter (fun kv => (snd kv =? v)%Z) (most_common c n ++ rest)
               = filter (fun kv => (snd kv =? v)%Z) c) /\
    List.length (most_common c n) = Nat.min (Z.to_nat n) (List.length c) /\
    (forall x y, In x (most_common c n) -> In y rest -> (snd y <= snd x)%Z).
Proof.
  exists (skipn (Z.to_nat n) (by_count c)). unfold most_common.
  rewrite firstn_skipn. split; [symmetry; apply by_count_perm|].
  split; [apply by_count_sorted|]. split; [intros v; apply by_count_stable|].
  split.
  - rewrite length_firstn. f_equal. symmetry. apply Permutation_length, by_count_perm.
  - pose proof (by_count_sorted c) as Hs.
    rewrite <- (firstn_skipn (Z.to_nat n) (by_count c)) in Hs.
    generalize dependent (skipn (Z.to_nat n) (by_count c)).
    generalize (firstn (Z.to_nat n) (by_count c)).
    intros l1. induction l1 as [|a l1 IH]; intros l2 Hs x y Hx Hy; [contradiction|].
    simpl in Hs. inversion Hs as [|? ? Hs' Ha]; subst.
    destruct Hx as [<-|Hx].
    + apply (proj1 (Forall_forall _ _) Ha). apply in_or_app. now right.
    + now apply (IH l2 Hs').
Qed.

Section TopK.
Import CompareLanguages.
Open Scope R_scope.

Lemma insert_prob_perm (x : string * R) (l : list (string * R)) :
  Permutation (x :: l) (insert_prob x l).
Proof.
  induction l as [|y l IH]; simpl; [reflexivity|].
  destruct (Rle_dec (- snd x) (- snd y)); [reflexivity|].
  rewrite perm_swap. now apply perm_skip.
Qed.

Lemma by_prob_perm (p : dict R) : Permutation p (by_prob p).
Proof.
  induction p as [|x p IH]; simpl; [reflexivity|].
  rewrite <- insert_prob_perm. now apply perm_skip.
Qed.

Lemma slice_prefix {A} (l : list A) (k : Z) :
  (0 <= k)%Z -> slice l 0 k = firstn (Z.to_nat k) l.
Proof.
  intros Hk. replace k with (Z.of_nat 0 + Z.of_nat (Z.to_nat k))%Z by lia.
  change 0%Z with (Z.of_nat 0) at 1.
  rewrite slice_firstn_skipn. simpl skipn. f_equal. lia.
Qed.

Lemma topk_length (p : dict R) (k : Z) :
  (0 <= k)%Z -> List.length (topk p k) = Nat.min (Z.to_nat k) (List.length p).
Proof.
  intros Hk. unfold topk. rewrite slice_prefix by exact Hk.
  rewrite length_firstn, length_map. f_equal.
  symmetry. apply Permutation_length, by_prob_perm.
Qed.

Lemma In_firstn {A} (n : nat) (l : list A) (x : A) : In x (firstn n l) -> In x l.
Proof.
  intros H. rewrite <- (firstn_skipn n l). apply in_or_app. now left.
Qed.

Lemma In_slice {A} (l : list A) (lo hi : Z) (x : A) : In x (slice l lo hi) -> In x l.
Proof.
  unfold slice. intros H. apply In_firstn in H.
  rewrite <- (firstn_skipn (Z.to_nat (clip (Z.of_nat (List.length l)) lo)) l).
  apply in_or_app. now right.
Qed.

Lemma topk_keys (p : dict R) (k : Z) (x : string) : In x (topk p k) -> In x (keys p).
Proof.
  unfold topk. intros H. apply In_slice in H.
  unfold keys. eapply Permutation_in; [|exact H].
  apply Permutation_map. symmetry. apply by_prob_perm.
Qed.

Lemma length_nodup_le (l : list string) :
  (List.length (nodup string_dec l) <= List.length l)%nat.
Proof.
  induction l as [|a l IH]; simpl; [lia|].
  destruct (in_dec string_dec a l); simpl; lia.
Qed.

Lemma length_filter_le {A} (f : A -> bool) (l : list A) :
  (List.length (filter f l) <= List.length l)%nat.
Proof.
  induction l as [|a l IH]; simpl; [lia|]. destruct (f a); simpl; lia.
Qed.

Lemma Q_fraction_bounds (a k : Z) :
  (0 <= a <= k)%Z -> (0 < k)%Z ->
  (0 <= inject_Z a / inject_Z k)%Q /\ (inject_Z a / inject_Z k <= 1)%Q.
Proof.
  intros Ha Hk.
  assert (Hk' : (0 < inject_Z k)%Q) by (unfold Qlt; simpl; lia).
  split.
  - apply Qle_shift_div_l; [exact Hk'|]. unfold Qle. simpl. lia.
  - apply Qle_shift_div_r; [exact Hk'|]. rewrite Qmult_1_l. rewrite <- Zle_Qle. lia.
Qed.

(** Property X11.  The top-k overlap is a fraction between 0 and 1; it is
    0 when [k] is not positive; at most 20 common keys are listed, and each
    of them is a key of both distributions. *)
Theorem topk_overlap_bounds (p q : dict R) (k : Z) :
  (0 <= fst (topk_overlap p q k))%Q /\
  (fst (topk_overlap p q k) <= 1)%Q /\
  ((k <= 0)%Z -> fst (topk_overlap p q k) = 0%Q) /\
  (List.length (snd (topk_overlap p q k)) <= 20)%nat /\
  (forall x, In x (snd (topk_overlap p q k)) -> In x (keys p) /\ In x (keys q)).
Proof.
  assert (Hin : forall x, In x (inter (set_of (topk p k)) (set_of (topk q k))) ->
                          In x (keys p) /\ In x (keys q)).
  { intros x Hx. unfold inter in Hx. apply filter_In in Hx. destruct Hx as [H1 H2].
    unfold set_of in *. apply nodup_In in H1. split; [now apply (topk_keys p k)|].
    unfold mem in H2. destruct (in_dec string_dec x _) as [H|]; [|discriminate].
    apply nodup_In in H. now apply (topk_keys q k). }
  unfold topk_overlap. cbn [fst snd].
  destruct (Z.ltb_spec 0 k) as [Hk|Hk].
  - assert (Hb : (0 <= Z.of_nat (List.length (inter (set_of (topk p k)) (set_of (topk q k)))) <= k)%Z).
    { split; [lia|].
      pose proof (length_filter_le (fun x => mem x (set_of (topk q k))) (set_of (topk p k))).
      pose proof (length_nodup_le (topk p k)).
      pose proof (topk_length p k ltac:(lia)).
      unfold inter, set_of in *. lia. }
    destruct (Q_fraction_bounds _ _ Hb Hk) as [H0 H1].
    split; [exact H0|]. split; [exact H1|]. split; [lia|]. split.
    + rewrite slice_prefix by lia. rewrite length_firstn. lia.
    + intros x Hx. apply In_slice in Hx. now apply Hin.
  - split; [apply Qle_refl|]. split; [unfold Qle; simpl; lia|].
    split; [reflexivity|]. split.
    + rewrite slice_prefix by lia. rewrite length_firstn. lia.
    + intros x Hx. apply In_slice in Hx. now apply Hin.
Qed.

Lemma NoDup_firstn {A} (n : nat) (l : list A) : NoDup l -> NoDup (firstn n l).
Proof.
  intros H. rewrite <- (firstn_skipn n l) in H. now apply NoDup_app_remove_r in H.
Qed.

Lemma inter_self (s : list string) : inter s s = s.
Proof.
  unfold inter. apply filter_all. intros x Hx. unfold mem.
  destruct (in_dec string_dec x s); [reflexivity|contradiction].
Qed.

(** Property X12.  A distribution overlaps itself completely: its top-k
    overlap with itself is [min(k, number of keys) / k]. *)
Theorem topk_overlap_self (p : dict R) (k : Z) :
  wf_dict p -> (0 < k)%Z ->
  fst (topk_overlap p p k)
  = (inject_Z (Z.of_nat (Nat.min (Z.to_nat k) (List.length p))) / inject_Z k)%Q.
Proof.
  intros Hwf Hk. unfold topk_overlap. cbn [fst].
  destruct (Z.ltb_spec 0 k); [|lia].
  rewrite inter_self.
  assert (Hnd : NoDup (topk p k)).
  { unfold topk. rewrite slice_prefix by lia. apply NoDup_firstn.
    unfold wf_dict, keys in Hwf. eapply Permutation_NoDup; [|exact Hwf].
    apply Permutation_map, by_prob_perm. }
  unfold set_of. rewrite (nodup_fixed_point string_dec Hnd).
  now rewrite topk_length by lia.
Qed.

Lemma topk_overlap_self_witness :
  fst (topk_overlap example_p example_p 50) = (inject_Z 2 / inject_Z 50)%Q.
Proof.
  apply (topk_overlap_self example_p 50 (proj1 example_p_distribution)). reflexivity.
Defined.

End TopK.

(** ** Corpus metrics and character n-grams *)

Section MetricsFacts.
Import ReportMetrics.

Lemma hapax_le_vocab (uni : dict Z) :
  (List.length (filter (fun v => (v =? 1)%Z) (values uni)) <= List.length uni)%nat.
Proof.
  pose proof (length_filter_le (fun v => (v =? 1)%Z) (values uni)) as H.
  unfold values in *. rewrite length_map in H. exact H.
Qed.

Lemma shannon_entropy_defined (T : dict Z) :
  frequency_table T ->
  exists h, Stats.shannon_entropy T = Some h /\ (0 <= h)%R.
Proof.
  intros HT. pose proof HT as [_ Hv].
  assert (Hvs : Forall (fun v => (1 <= v)%Z) (values T))
    by (unfold values; apply Forall_map; exact Hv).
  exists (Rsum (map (ent_term (Zsum (values T))) (values T))).
  split; [now apply shannon_entropy_sum|].
  apply entropy_sum_nonneg. intros v Hin.
  split; [exact (proj1 (Forall_forall _ _) Hvs v Hin)|now apply Zsum_ge].
Qed.

(** Property X13.  [compute_metrics] never fails.  It reports the number
    of lines and the number of tokens of all lines together; the vocabulary
    is no larger than the token count, the hapax count no larger than the
    vocabulary, the hapax ratio lies between 0 and 1, the entropy is not
    negative, and the Zipf slope is undefined exactly when the vocabulary
    has fewer than 3 tokens. *)
Theorem compute_metrics_spec (text_lines : list string) :
  exists m,
    compute_metrics text_lines = Some m /\
    lines m = List.length text_lines /\
    tokens m = Z.of_nat (List.length (all_tokens text_lines)) /\
    (Z.of_nat (vocab_size m) <= tokens m)%Z /\
    (hapax_legomena m <= vocab_size m)%nat /\
    (0 <= hapax_ratio m)%Q /\ (hapax_ratio m <= 1)%Q /\
    (0 <= unigram_entropy_bits m)%R /\
    (zipf_slope_loglog m = None <-> (vocab_size m < 3)%nat).
Proof.
  unfold compute_metrics.
  set (toks := all_tokens text_lines).
  pose proof (Counter_frequency_table toks) as HT.
  destruct (shannon_entropy_defined (Counter toks) HT) as [h [Eh Hh]].
  unfold shannon_entropy. rewrite Eh.
  eexists. split; [reflexivity|]. cbn [lines tokens vocab_size hapax_legomena
    hapax_ratio unigram_entropy_bits zipf_slope_loglog].
  split; [reflexivity|]. split; [apply Counter_total|].
  split.
  { rewrite Counter_total.
    destruct HT as [_ Hv].
    assert (Hvs : Forall (fun v => (1 <= v)%Z) (values (Counter toks)))
      by (unfold values; apply Forall_map; exact Hv).
    pose proof (Zsum_ge_length _ Hvs) as Hl. rewrite Counter_total in Hl.
    unfold values in Hl. rewrite length_map in Hl. exact Hl. }
  split; [apply hapax_le_vocab|].
  assert (HQ : (0 <= match List.length (Counter toks) with
                     | O => 0
                     | S _ =>
                         inject_Z (Z.of_nat (List.length
                           (filter (fun v => (v =? 1)%Z) (values (Counter toks)))))
                         / inject_Z (Z.of_nat (List.length (Counter toks)))
                     end)%Q /\
               (match List.length (Counter toks) with
                | O => 0
                | S _ =>
                    inject_Z (Z.of_nat (List.length
                      (filter (fun v => (v =? 1)%Z) (values (Counter toks)))))
                    / inject_Z (Z.of_nat (List.length (Counter toks)))
                end <= 1)%Q).
  { pose proof (hapax_le_vocab (Counter toks)) as Hle.
    destruct (List.length (Counter toks)) as [|n] eqn:En.
    - split; [apply Qle_refl|unfold Qle; simpl; lia].
    - apply Q_fraction_bounds; lia. }
  split; [exact (proj1 HQ)|]. split; [exact (proj2 HQ)|]. split; [exact Hh|].
  rewrite zipf_slope_unfold.
  destruct (Nat.ltb_spec (List.length (Counter toks)) 3) as [Hlt|Hge].
  - split; [intros _; exact Hlt|reflexivity].
  - split; [discriminate|intros Hlt; lia].
Qed.

End MetricsFacts.

Section CharacterNgrams.
Import CompareLanguages.

Lemma update_frequency_table (c : dict Z) (ks : list string) :
  frequency_table c -> frequency_table (update c ks).
Proof. apply fold_incr_frequency_table. Qed.

Lemma update_total (c : dict Z) (ks : list string) :
  Zsum (values (update c ks)) = (Zsum (values c) + Z.of_nat (List.length ks))%Z.
Proof. apply fold_incr_sum. Qed.

Lemma length_lower (s : string) : String.length (Tokenizer.lower s) = String.length s.
Proof.
  unfold Tokenizer.lower.
  assert (E : forall l, String.length (string_of_list_ascii l) = List.length l).
  { induction l as [|c l IH]; simpl; [reflexivity|]. now rewrite IH. }
  rewrite E, length_map.
  induction s as [|c s IH]; simpl; [reflexivity|]. now rewrite IH.
Qed.

Lemma ngram_keys_length (s : string) (n : Z) :
  Z.of_nat (List.length (ngram_keys s n))
  = if (Z.of_nat (String.length s) <? n)%Z then 1%Z
    else (Z.of_nat (String.length s) - n + 1)%Z.
Proof.
  unfold ngram_keys. rewrite length_lower.
  destruct (Z.ltb_spec (Z.of_nat (String.length s)) n) as [Hlt|Hge]; [reflexivity|].
  rewrite length_map, range_length. lia.
Qed.

Lemma ngram_counts_fold (strings : list string) (n : Z) (c : dict Z) :
  frequency_table c ->
  frequency_table (fold_left (fun c s => update c (ngram_keys s n)) strings c) /\
  Zsum (values (fold_left (fun c s => update c (ngram_keys s n)) strings c))
  = (Zsum (values c)
     + Zsum (map (fun s => Z.of_nat (List.length (ngram_keys s n))) strings))%Z.
Proof.
  revert c. induction strings as [|s strings IH]; intros c Hc; cbn [fold_left map Zsum fold_right].
  - split; [exact Hc|lia].
  - destruct (IH (update c (ngram_keys s n)) (update_frequency_table _ _ Hc)) as [H1 H2].
    split; [exact H1|]. rewrite H2, update_total. unfold Zsum. lia.
Qed.

(** Property X14.  [ngram_counts] builds a frequency table whose counts
    add up to one per string shorter than [n] and [len - n + 1] per other
    string: no string is ever dropped, a short one is counted whole. *)
Theorem ngram_counts_total (strings : list string) (n : Z) :
  frequency_table (ngram_counts strings n) /\
  Zsum (values (ngram_counts strings n))
  = Zsum (map (fun s => if (Z.of_nat (String.length s) <? n)%Z then 1%Z
                        else (Z.of_nat (String.length s) - n + 1)%Z)
              strings).
Proof.
  unfold ngram_counts.
  destruct (ngram_counts_fold strings n []) as [H1 H2]; [split; constructor|].
  split; [exact H1|]. rewrite H2. simpl Zsum at 1.
  rewrite Z.add_0_l. f_equal. apply map_ext. intros s. apply ngram_keys_length.
Qed.

End CharacterNgrams.

(** ** Folio order keys and vocabulary balance *)

Section FolioKeys.
Import TemporalEvolution.

Lemma int_of_digits_nonneg (ds : list ascii) : (0 <= int_of_digits ds)%Z.
Proof.
  unfold int_of_digits.
  assert (H : forall acc, (0 <= acc)%Z ->
            (0 <= fold_left (fun acc c => (10 * acc + Z.of_nat (nat_of_ascii c - 48))%Z)
                            ds acc)%Z).
  { induction ds as [|d ds IH]; intros acc Hacc; cbn [fold_left]; [exact Hacc|].
    apply IH. lia. }
  apply H. lia.
Qed.

Lemma order_of_match (f : string) (ds : list ascii) (c : ascii) :
  matches_pattern f ds c ->
  fst (extract_folio_order f)
  = (int_of_digits ds * 2 + (if Ascii.eqb c "r"%char then 0 else 1))%Z.
Proof.
  intros H. unfold extract_folio_order. now rewrite (re_match_complete _ _ _ H).
Qed.

(** Property X15.  The order key is never negative; between two
    identifiers that match the pattern it follows the page number, puts the
    recto of a page before its verso, and is the same only for the same
    number and side. *)
Theorem folio_order_key (f1 f2 : string) (ds1 ds2 : list ascii) (c1 c2 : ascii) :
  matches_pattern f1 ds1 c1 -> matches_pattern f2 ds2 c2 ->
  (0 <= fst (extract_folio_order f1))%Z /\
  ((int_of_digits ds1 < int_of_digits ds2)%Z ->
     (fst (extract_folio_order f1) < fst (extract_folio_order f2))%Z) /\
  (int_of_digits ds1 = int_of_digits ds2 -> c1 = "r"%char -> c2 = "v"%char ->
     (fst (extract_folio_order f1) + 1 = fst (extract_folio_order f2))%Z) /\
  (fst (extract_folio_order f1) = fst (extract_folio_order f2) ->
     int_of_digits ds1 = int_of_digits ds2 /\ c1 = c2).
Proof.
  intros H1 H2.
  rewrite (order_of_match f1 ds1 c1 H1), (order_of_match f2 ds2 c2 H2).
  pose proof (int_of_digits_nonneg ds1) as N1.
  destruct H1 as [_ [_ [_ [_ S1]]]]. destruct H2 as [_ [_ [_ [_ S2]]]].
  unfold is_side in S1, S2.
  apply orb_true_iff in S1, S2.
  destruct S1 as [S1|S1], S2 as [S2|S2];
    apply Ascii.eqb_eq in S1, S2; subst c1 c2; cbn [Ascii.eqb Bool.eqb andb];
    repeat split; try lia; try discriminate; intros; lia.
Qed.

Lemma folio_order_key_witness :
  (fst (extract_folio_order "9v") < fst (extract_folio_order "10r"))%Z.
Proof.
  refine (proj1 (proj2 (folio_order_key "9v" "10r" ["9"]%char ["1"; "0"]%char
                          "v"%char "r"%char _ _)) _).
  - exists []. repeat split. discriminate.
  - exists []. repeat split. discriminate.
  - reflexivity.
Defined.

End FolioKeys.

Section ShiftFacts.
Import TemporalEvolution.

Lemma filter_partition_length {A} (f : A -> bool) (l : list A) :
  (List.length (filter f l) + List.length (filter (fun x => negb (f x)) l)
   = List.length l)%nat.
Proof.
  induction l as [|a l IH]; simpl; [reflexivity|].
  destruct (f a); simpl; lia.
Qed.

Lemma mem_true_iff (x : string) (s : list string) : mem x s = true <-> In x s.
Proof.
  unfold mem. destruct (in_dec string_dec x s); split; auto; discriminate.
Qed.

Lemma inter_comm_length (a b : list string) :
  NoDup a -> NoDup b -> List.length (inter a b) = List.length (inter b a).
Proof.
  intros Ha Hb. apply Permutation_length. unfold inter.
  apply NoDup_Permutation; try now apply NoDup_filter.
  intros x. rewrite !filter_In, !mem_true_iff. tauto.
Qed.

Lemma union_length (a b : list string) :
  NoDup a -> NoDup b ->
  List.length (union a b) = (List.length a + List.length (diff b a))%nat.
Proof.
  intros Ha Hb. rewrite <- length_app. apply Permutation_length. unfold union, diff.
  apply NoDup_Permutation.
  - apply NoDup_nodup.
  - apply NoDup_app; [exact Ha|now apply NoDup_filter|].
    intros x Hx Hf. apply filter_In in Hf. destruct Hf as [_ Hf].
    apply negb_true_iff in Hf.
    assert (mem x a = true) by now apply mem_true_iff. congruence.
  - intros x. rewrite nodup_In, !in_app_iff, filter_In, negb_true_iff.
    split.
    + intros [H|H]; [now left|].
      destruct (mem x a) eqn:E; [left; now apply mem_true_iff|right; now split].
    + intros [H|[H _]]; [now left|now right].
Qed.

Lemma shift_of_balanced (w12 : list folio_stat * list folio_stat) :
  balanced (shift_of w12).
Proof.
  unfold balanced, shift_of. cbn [disappeared_tokens vocab_size_1 vocab_size_2 new_tokens
                        jaccard_similarity].
  set (v1 := set_of (window_tokens (fst w12))).
  set (v2 := set_of (window_tokens (snd w12))).
  assert (N1 : NoDup v1) by apply NoDup_nodup.
  assert (N2 : NoDup v2) by apply NoDup_nodup.
  pose proof (filter_partition_length (fun k => mem k v2) v1) as P1.
  pose proof (filter_partition_length (fun k => mem k v1) v2) as P2.
  pose proof (inter_comm_length v1 v2 N1 N2) as Hc.
  pose proof (union_length v1 v2 N1 N2) as Hu.
  unfold inter, diff in *.
  set (i12 := List.length (filter (fun k => mem k v2) v1)) in *.
  set (d12 := List.length (filter (fun k => negb (mem k v2)) v1)) in *.
  set (i21 := List.length (filter (fun k => mem k v1) v2)) in *.
  set (d21 := List.length (filter (fun k => negb (mem k v1)) v2)) in *.
  split; [lia|]. split; [lia|]. split; [lia|].
  rewrite Hu.
  replace (List.length v1 - d12)%nat with i12 by lia.
  split; [reflexivity|].
  destruct (Nat.ltb_spec 0 (List.length v1 + d21)) as [Hpos|Hz].
  - apply Q_fraction_bounds; lia.
  - split; [apply Qle_refl|unfold Qle; simpl; lia].
Qed.

(** Property X16.  In every row of the vocabulary-shift table the counts
    balance: what is left of the first vocabulary after the disappeared
    tokens is what is left of the second after the new ones (the shared
    tokens), the Jaccard similarity is that shared count over
    [vocab_size_1 + new_tokens], and it lies between 0 and 1. *)
Theorem shift_of_balance (stats : list folio_stat) (window_size : Z) :
  Forall balanced (detect_vocabulary_shifts stats window_size).
Proof.
  unfold detect_vocabulary_shifts. apply Forall_map, Forall_forall.
  intros w12 _. apply shift_of_balanced.
Qed.

End ShiftFacts.

(** ** Per-folio statistics *)

Section FolioStatistics.
Import TemporalEvolution.

Lemma unique_acc_spec (xs acc : list string) :
  NoDup acc ->
  NoDup (fold_left (fun acc x => if mem x acc then acc else acc ++ [x]) xs acc) /\
  (forall y, In y acc \/ In y xs ->
     In y (fold_left (fun acc x => if mem x acc then acc else acc ++ [x]) xs acc)).
Proof.
  revert acc. induction xs as [|x xs IH]; intros acc Hacc; cbn [fold_left].
  - split; [exact Hacc|]. intros y [H|[]]. exact H.
  - destruct (mem x acc) eqn:E.
    + destruct (IH acc Hacc) as [H1 H2]. split; [exact H1|].
      intros y [H|[<-|H]]; apply H2; auto. left. now apply mem_true_iff.
    + assert (Hn : NoDup (acc ++ [x])).
      { apply NoDup_app; [exact Hacc|repeat constructor; intros []|].
        intros y Hy [<-|[]]. apply mem_true_iff in Hy. congruence. }
      destruct (IH (acc ++ [x]) Hn) as [H1 H2]. split; [exact H1|].
      intros y [H|[<-|H]]; apply H2; auto; left; apply in_or_app; auto.
      right. now left.
Qed.

Lemma unique_NoDup (xs : list string) : NoDup (unique xs).
Proof. apply (unique_acc_spec xs []). constructor. Qed.

Lemma unique_In (xs : list string) (y : string) : In y xs -> In y (unique xs).
Proof. intros H. apply (unique_acc_spec xs []); [constructor|now right]. Qed.

Lemma insert_folio_perm (x : string) (l : list string) :
  Permutation (x :: l) (insert_folio x l).
Proof.
  induction l as [|y l IH]; simpl; [reflexivity|].
  destruct (_ <=? _)%Z; [reflexivity|].
  rewrite perm_swap. now apply perm_skip.
Qed.

Lemma sorted_folios_perm (l : list string) : Permutation l (sorted_folios l).
Proof.
  induction l as [|x l IH]; simpl; [reflexivity|].
  rewrite <- insert_folio_perm. now apply perm_skip.
Qed.

Lemma insert_folio_sorted (x : string) (l : list string) :
  StronglySorted by_order l -> StronglySorted by_order (insert_folio x l).
Proof.
  unfold by_order. induction 1 as [|y l Hl IH Hy]; simpl.
  - repeat constructor.
  - destruct (Z.leb_spec (fst (extract_folio_order x)) (fst (extract_folio_order y)))
      as [Hle|Hgt].
    + constructor; [now constructor|].
      constructor; [exact Hle|]. eapply Forall_impl; [|exact Hy]. simpl. intros; lia.
    + constructor; [exact IH|].
      apply (Permutation_Forall (insert_folio_perm x l)).
      constructor; [lia|exact Hy].
Qed.

Lemma sorted_folios_sorted (l : list string) : StronglySorted by_order (sorted_folios l).
Proof.
  induction l as [|x l IH]; simpl; [constructor|]. now apply insert_folio_sorted.
Qed.

Lemma list_sum_map_add {A} (f g : A -> nat) (l : list A) :
  list_sum (map (fun x => f x + g x)%nat l)
  = (list_sum (map f l) + list_sum (map g l))%nat.
Proof. induction l as [|a l IH]; simpl; [reflexivity|]. rewrite IH. lia. Qed.

Lemma indicator_sum (k : string) (fs : list string) :
  NoDup fs -> In k fs ->
  list_sum (map (fun f => if String.eqb k f then 1 else 0)%nat fs) = 1%nat.
Proof.
  induction 1 as [|f fs Hnot Hnd IH]; intros Hin; [contradiction|].
  cbn [map list_sum fold_right].
  destruct (String.eqb_spec k f) as [E|Hne].
  - subst f.
    assert (Hz : list_sum (map (fun f => if String.eqb k f then 1 else 0)%nat fs) = 0%nat).
    { clear IH Hnd Hin. induction fs as [|g fs IHf]; [reflexivity|].
      cbn [map list_sum fold_right].
      destruct (String.eqb_spec k g) as [E|_].
      - exfalso. apply Hnot. left. now symmetry.
      - apply IHf. intros H. apply Hnot. now right. }
    unfold list_sum in *. rewrite Hz. reflexivity.
  - destruct Hin as [E|Hin]; [exfalso; apply Hne; now symmetry|].
    apply (IH Hin).
Qed.

(** Rows are shared out among distinct folios that cover them all. *)
Lemma rows_partition (P : string -> bool) (fs : list string)
      (rows : list (string * string)) :
  NoDup fs -> (forall r, In r rows -> In (fst r) fs) ->
  list_sum (map (fun f =>
             List.length (filter (fun r => String.eqb (fst r) f && P (snd r)) rows)) fs)
  = List.length (filter (fun r => P (snd r)) rows).
Proof.
  intros Hfs. induction rows as [|r rows IH]; intros Hcov.
  - simpl. clear Hfs Hcov. induction fs as [|f fs IHf]; simpl; [reflexivity|exact IHf].
  - assert (IH' := IH (fun r' H => Hcov r' (or_intror H))). clear IH.
    rewrite (map_ext _
      (fun f => ((if String.eqb (fst r) f then (if P (snd r) then 1 else 0) else 0)
                 + List.length (filter (fun r0 => String.eqb (fst r0) f && P (snd r0)) rows))%nat)).
    + rewrite list_sum_map_add, IH'. cbn [filter].
      destruct (P (snd r)); cbn [List.length].
      * rewrite (indicator_sum (fst r) fs Hfs (Hcov r (or_introl eq_refl))). reflexivity.
      * assert (Hz : list_sum (map (fun f => if String.eqb (fst r) f then 0 else 0)%nat fs) = 0%nat).
        { clear. induction fs as [|f fs IHf]; [reflexivity|].
          cbn [map list_sum fold_right]. unfold list_sum in IHf. rewrite IHf.
          now destruct (String.eqb (fst r) f). }
        rewrite Hz. reflexivity.
    + intros f. cbn [filter].
      destruct (String.eqb (fst r) f), (P (snd r)); reflexivity.
Qed.

Lemma StronglySorted_map {A B} (R : B -> B -> Prop) (g : A -> B) (l : list A) :
  StronglySorted (fun a b => R (g a) (g b)) l -> StronglySorted R (map g l).
Proof.
  induction 1 as [|a l Hl IH Ha]; simpl; constructor; [exact IH|].
  apply Forall_map. exact Ha.
Qed.

Lemma stats_folios (tokens_df : list (string * string)) :
  map folio (compute_folio_statistics tokens_df)
  = sorted_folios (unique (map fst tokens_df)).
Proof.
  unfold compute_folio_statistics. rewrite map_map. simpl. apply map_id.
Qed.

Lemma folios_cover (tokens_df : list (string * string)) :
  NoDup (sorted_folios (unique (map fst tokens_df))) /\
  (forall r, In r tokens_df -> In (fst r) (sorted_folios (unique (map fst tokens_df)))).
Proof.
  split.
  - eapply Permutation_NoDup; [apply sorted_folios_perm|apply unique_NoDup].
  - intros r Hr. eapply Permutation_in; [apply sorted_folios_perm|].
    apply unique_In, in_map. exact Hr.
Qed.

Lemma Counter_length_le (ts : list string) :
  (List.length (Counter ts) <= List.length ts)%nat.
Proof.
  pose proof (Counter_frequency_table ts) as [_ Hv].
  assert (Hvs : Forall (fun v => (1 <= v)%Z) (values (Counter ts)))
    by (unfold values; apply Forall_map; exact Hv).
  pose proof (Zsum_ge_length _ Hvs) as Hl. rewrite Counter_total in Hl.
  unfold values in Hl. rewrite length_map in Hl. lia.
Qed.

(** Property X17.  [compute_folio_statistics] lists every folio of the
    token table exactly once, in non-decreasing order of the order key; each
    entry holds the tokens of the rows of its folio, in row order, with
    their number and the number of distinct ones, which is at least 1 and at
    most the token count; and the token counts of all folios add up to the
    number of rows. *)
Theorem compute_folio_statistics_invariants (tokens_df : list (string * string)) :
  NoDup (map folio (compute_folio_statistics tokens_df)) /\
  (forall f, In f (map folio (compute_folio_statistics tokens_df))
             <-> In f (map fst tokens_df)) /\
  StronglySorted (fun a b => (order a <= order b)%Z)
                 (compute_folio_statistics tokens_df) /\
  Forall (fun s =>
            order s = fst (extract_folio_order (folio s)) /\
            side s = snd (extract_folio_order (folio s)) /\
            tokens s = map snd (filter (fun r => String.eqb (fst r) (folio s)) tokens_df) /\
            token_count s = List.length (tokens s) /\
            (1 <= unique_tokens s <= token_count s)%nat)
         (compute_folio_statistics tokens_df) /\
  list_sum (map token_count (compute_folio_statistics tokens_df))
  = List.length tokens_df.
Proof.
  destruct (folios_cover tokens_df) as [Hnd Hcov].
  split; [rewrite stats_folios; exact Hnd|]. split.
  { intros f. rewrite stats_folios. split.
    - intros H. now apply In_unique, In_sorted_folios.
    - intros H. eapply Permutation_in; [apply sorted_folios_perm|]. now apply unique_In. }
  split.
  { unfold compute_folio_statistics. apply StronglySorted_map.
    exact (sorted_folios_sorted (unique (map fst tokens_df))). }
  split.
  { pose proof (compute_folio_statistics_tokens tokens_df) as Hne.
    rewrite Forall_forall in *. intros s Hs. specialize (Hne s Hs).
    unfold compute_folio_statistics in Hs. apply in_map_iff in Hs.
    destruct Hs as [f [<- _]]. cbn [order side folio tokens token_count unique_tokens] in *.
    repeat split; try reflexivity.
    - destruct (map snd (filter (fun row => String.eqb (fst row) f) tokens_df)) eqn:E;
        [contradiction|].
      pose proof (Counter_not_nil (s :: l) ltac:(discriminate)) as Hc.
      destruct (Counter (s :: l)); [contradiction|simpl; lia].
    - apply Counter_length_le. }
  unfold compute_folio_statistics. rewrite map_map. cbn [token_count].
  rewrite <- (filter_all (fun r : string * string => true) tokens_df) at 2
    by reflexivity.
  rewrite <- (rows_partition (fun _ => true) _ tokens_df Hnd Hcov).
  f_equal. apply map_ext. intros f. rewrite length_map.
  f_equal. apply filter_ext. intros r. now rewrite andb_true_r.
Qed.

End FolioStatistics.

(** ** Token evolution and per-folio ratios *)

Section TokenEvolution.
Import TemporalEvolution.

Lemma count_as_filter (rows : list (string * string)) (tok : string) :
  count (map snd rows) tok
  = List.length (filter (fun r => String.eqb (snd r) tok) rows).
Proof.
  unfold count. induction rows as [|r rows IH]; simpl; [reflexivity|].
  destruct (string_dec (snd r) tok) as [E|Hne].
  - rewrite E, String.eqb_refl. simpl. now rewrite IH.
  - destruct (String.eqb_spec (snd r) tok); [contradiction|exact IH].
Qed.

Lemma filter_filter_length {A} (f g : A -> bool) (l : list A) :
  List.length (filter g (filter f l))
  = List.length (filter (fun x => f x && g x) l).
Proof.
  induction l as [|a l IH]; simpl; [reflexivity|].
  destruct (f a); simpl; [destruct (g a); simpl; now rewrite IH|exact IH].
Qed.

Lemma present_nil_iff (ev : list evolution_row) :
  filter (fun r => (0 <? absolute_count r)%nat) ev = []
  <-> list_sum (map absolute_count ev) = 0%nat.
Proof.
  induction ev as [|r ev IH]; simpl; [tauto|].
  destruct (Nat.ltb_spec 0 (absolute_count r)) as [Hpos|Hz].
  - split; [discriminate|lia].
  - rewrite IH. lia.
Qed.

Lemma present_le_total (ev : list evolution_row) :
  (List.length (filter (fun r => (0 <? absolute_count r)%nat) ev)
   <= list_sum (map absolute_count ev))%nat.
Proof.
  induction ev as [|r ev IH]; simpl; [lia|].
  destruct (Nat.ltb_spec 0 (absolute_count r)); simpl; lia.
Qed.

Lemma hd_error_nil_iff {A} (l : list A) : hd_error l = None <-> l = [].
Proof. destruct l; simpl; split; intros H; try reflexivity; discriminate. Qed.

Lemma evolution_summary_spec (tokens_df : list (string * string)) (tok : string) :
  let r := evolution_summary (evolution_of (compute_folio_statistics tokens_df) tok)
                             tok in
  total_occurrences r = count (map snd tokens_df) tok /\
  List.length (evolution r) = List.length (compute_folio_statistics tokens_df) /\
  (first_appearance r = None <-> count (map snd tokens_df) tok = 0%nat) /\
  (last_appearance r = None <-> count (map snd tokens_df) tok = 0%nat) /\
  (appears_in_folios r <= List.length (compute_folio_statistics tokens_df))%nat /\
  (appears_in_folios r <= count (map snd tokens_df) tok)%nat.
Proof.
  set (stats := compute_folio_statistics tokens_df).
  assert (Etot : list_sum (map absolute_count (evolution_of stats tok))
                 = count (map snd tokens_df) tok).
  { destruct (folios_cover tokens_df) as [Hnd Hcov].
    rewrite count_as_filter.
    rewrite <- (rows_partition (fun t => String.eqb t tok) _ tokens_df Hnd Hcov).
    unfold evolution_of, stats, compute_folio_statistics.
    rewrite !map_map. cbn [absolute_count tokens]. f_equal. apply map_ext. intros f.
    rewrite count_as_filter. apply filter_filter_length. }
  unfold evolution_summary.
  cbn [total_occurrences evolution first_appearance last_appearance appears_in_folios].
  split; [exact Etot|]. split; [unfold evolution_of; apply length_map|].
  rewrite <- Etot. split; [|split; [|split]].
  - rewrite hd_error_nil_iff. rewrite <- present_nil_iff.
    split; [apply map_eq_nil|intros ->; reflexivity].
  - rewrite hd_error_nil_iff. rewrite <- present_nil_iff. split.
    + intros H. apply (f_equal (@rev string)) in H. rewrite rev_involutive in H.
      simpl in H. now apply map_eq_nil in H.
    + intros ->. reflexivity.
  - rewrite length_map.
    etransitivity; [apply length_filter_le|]. unfold evolution_of. now rewrite length_map.
  - rewrite length_map. apply present_le_total.
Qed.

Lemma compute_folio_statistics_nil (tokens_df : list (string * string)) :
  compute_folio_statistics tokens_df = [] <-> tokens_df = [].
Proof.
  destruct (folios_cover tokens_df) as [_ Hcov]. split.
  - intros E. destruct tokens_df as [|[f t] rest]; [reflexivity|].
    pose proof (Hcov (f, t) (or_introl eq_refl)) as Hin.
    rewrite <- stats_folios, E in Hin. contradiction.
  - intros ->. reflexivity.
Qed.

(** Property X18.  [analyze_token_evolution] fails (with a [KeyError])
    exactly when the token table has no row.  Otherwise it reports as total
    the number of rows that hold the token, with one evolution row per
    folio; the first and the last appearance are absent exactly when that
    total is 0; and the token appears in no more folios than there are
    folios or occurrences. *)
Theorem analyze_token_evolution_spec (tokens_df : list (string * string))
        (tok : string) :
  (analyze_token_evolution (compute_folio_statistics tokens_df) tok = None
   <-> tokens_df = []) /\
  (forall r,
     analyze_token_evolution (compute_folio_statistics tokens_df) tok = Some r ->
     total_occurrences r = count (map snd tokens_df) tok /\
     List.length (evolution r) = List.length (compute_folio_statistics tokens_df) /\
     (first_appearance r = None <-> count (map snd tokens_df) tok = 0%nat) /\
     (last_appearance r = None <-> count (map snd tokens_df) tok = 0%nat) /\
     (appears_in_folios r <= List.length (compute_folio_statistics tokens_df))%nat /\
     (appears_in_folios r <= count (map snd tokens_df) tok)%nat).
Proof.
  pose proof (evolution_summary_spec tokens_df tok) as Hs.
  pose proof (compute_folio_statistics_nil tokens_df) as Hn.
  unfold analyze_token_evolution.
  destruct (evolution_of (compute_folio_statistics tokens_df) tok) as [|row ev] eqn:E.
  - split; [|discriminate]. split; [intros _|reflexivity].
    apply Hn. unfold evolution_of in E. now apply map_eq_nil in E.
  - split.
    + split; [discriminate|]. intros Ht. apply Hn in Ht.
      unfold evolution_of in E. rewrite Ht in E. discriminate.
    + intros r Hr. injection Hr as <-. exact Hs.
Qed.

Lemma In_keys_incr (c : dict Z) (k x : string) :
  In x (keys (incr c k)) -> x = k \/ In x (keys c).
Proof.
  rewrite keys_incr. destruct (in_dec string_dec k (keys c)); [now right|].
  intros H. apply in_app_or in H. destruct H as [H|[H|[]]]; auto.
Qed.

Lemma In_keys_fold_incr (ts : list string) (c : dict Z) (x : string) :
  In x (keys (fold_left incr ts c)) -> In x ts \/ In x (keys c).
Proof.
  revert c. induction ts as [|t ts IH]; intros c H; simpl in *; [now right|].
  apply IH in H. destruct H as [H|H]; [left; now right|].
  apply In_keys_incr in H. destruct H as [->|H]; [left; now left|now right].
Qed.

Lemma In_keys_Counter (ts : list string) (x : string) :
  In x (keys (Counter ts)) -> In x ts.
Proof. intros H. apply In_keys_fold_incr in H. destruct H as [H|[]]. exact H. Qed.

Lemma most_common_one (c : dict Z) :
  match most_common c 1 with
  | [] => c = []
  | kv :: _ => In kv c /\ forall kv', In kv' c -> (snd kv' <= snd kv)%Z
  end.
Proof.
  unfold most_common. change (Z.to_nat 1) with 1%nat.
  pose proof (by_count_perm c) as HP. pose proof (by_count_sorted c) as Hs.
  destruct (by_count c) as [|kv l]; simpl.
  - now apply Permutation_nil.
  - split.
    + eapply Permutation_in; [symmetry; exact HP|now left].
    + intros kv' Hin. apply (Permutation_in _ HP) in Hin.
      inversion Hs as [|? ? _ Hall]; subst.
      destruct Hin as [<-|Hin]; [lia|].
      exact (proj1 (Forall_forall _ _) Hall kv' Hin).
Qed.

(** Property X19.  For the tokens of a folio: the vocabulary diversity and
    the repetition rate lie between 0 and 1; there is a most common token
    exactly when there are tokens, it is one of them, its frequency is its
    count, and no token has a higher count. *)
Theorem folio_ratios (tokens_list : list string) :
  (0 <= vocabulary_diversity tokens_list)%Q /\
  (vocabulary_diversity tokens_list <= 1)%Q /\
  (0 <= repetition_rate tokens_list)%Q /\
  (repetition_rate tokens_list <= 1)%Q /\
  (most_common_token tokens_list = None <-> tokens_list = []) /\
  (forall t, most_common_token tokens_list = Some t ->
     In t tokens_list /\
     get (Counter tokens_list) t 0%Z = most_common_freq tokens_list /\
     forall k, (get (Counter tokens_list) k 0 <= most_common_freq tokens_list)%Z).
Proof.
  pose proof (Counter_frequency_table tokens_list) as [Hwf Hv].
  pose proof (most_common_one (Counter tokens_list)) as Hm.
  assert (Hvs : Forall (fun v => (1 <= v)%Z) (values (Counter tokens_list)))
    by (unfold values; apply Forall_map; exact Hv).
  unfold vocabulary_diversity, repetition_rate, most_common_token, most_common_freq.
  destruct (most_common (Counter tokens_list) 1) as [|[t v] rest] eqn:Em.
  - (* no tokens *)
    assert (Hnil : tokens_list = []).
    { destruct tokens_list as [|x xs]; [reflexivity|].
      exfalso. apply (Counter_not_nil (x :: xs)); [discriminate|exact Hm]. }
    subst tokens_list. repeat split; try apply Qle_refl;
      try (unfold Qle; simpl; lia); try discriminate.
  - destruct Hm as [Hin Hmax]. cbn [fst snd].
    assert (Hne : tokens_list <> []).
    { intros ->. unfold Counter in Hin. simpl in Hin. exact Hin. }
    destruct tokens_list as [|x xs] eqn:Ets; [contradiction|]. rewrite <- Ets in *.
    assert (Hlen : (0 < Z.of_nat (List.length tokens_list))%Z) by (rewrite Ets; simpl; lia).
    assert (Hvle : (1 <= v <= Z.of_nat (List.length tokens_list))%Z).
    { split; [exact (proj1 (Forall_forall _ _) Hv (t, v) Hin)|].
      rewrite <- Counter_total. apply Zsum_ge; [exact Hvs|].
      unfold values. apply in_map_iff. now exists (t, v). }
    pose proof (Counter_length_le tokens_list) as Hcl.
    split; [apply Q_fraction_bounds; lia|]. split; [apply Q_fraction_bounds; lia|].
    split; [apply Q_fraction_bounds; lia|]. split; [apply Q_fraction_bounds; lia|].
    split; [split; [discriminate|intros E; rewrite E in Ets; discriminate]|].
    intros t' Et. inversion Et; subst t'. split; [|split].
    + apply In_keys_Counter. unfold keys. apply in_map_iff. now exists (t, v).
    + now apply get_In.
    + intros k. destruct (in_dec string_dec k (keys (Counter tokens_list))) as [Hk|Hk].
      * unfold keys in Hk. apply in_map_iff in Hk. destruct Hk as [[k' v'] [E Hk]].
        simpl in E. subst k'. rewrite (get_In _ k v' 0%Z Hwf Hk).
        exact (Hmax (k, v') Hk).
      * rewrite get_notin by exact Hk. lia.
Qed.

End TokenEvolution.

(** ** More on the JSONL readers *)

Section MoreReaderFacts.
Import Json.

Variable json_loads : string -> option json.

(** Stripping a line that decodes does not change what it decodes to, as
    with [json.loads]. *)
Hypothesis loads_strip :
  forall ln v, json_loads ln = Some v -> json_loads (strip ln) = Some v.

Lemma cc_line_ok_rm_line (lines lines' : list json) (ln : string) :
  cc_line json_loads lines ln = Ok lines' ->
  rm_line json_loads lines ln = Ok lines'.
Proof.
  unfold cc_line, rm_line.
  destruct (String.eqb (strip ln) EmptyString); [trivial|].
  destruct (json_loads ln) as [obj|] eqn:E; [|discriminate].
  now rewrite (loads_strip ln obj E).
Qed.

Lemma readers_agree_from (fh : list string) (acc ls : list json) :
  loop_from (cc_line json_loads) fh (Ok acc) = Ok ls ->
  loop_from (rm_line json_loads) fh (Ok acc) = Ok ls.
Proof.
  revert acc. induction fh as [|ln fh IH]; intros acc H; [exact H|].
  unfold loop_from in *. cbn [fold_left bind] in *.
  destruct (cc_line json_loads acc ln) as [acc'|e] eqn:E.
  - rewrite (cc_line_ok_rm_line _ _ _ E). now apply IH.
  - fold (loop_from (cc_line json_loads) fh (Raise e)) in H.
    rewrite loop_from_raise in H. discriminate.
Qed.

(** Property X20.  Whenever [read_voynich_lines] reads a file to the end,
    [read_lines_from_jsonl] returns the same lines for it: the guarded
    reader only adds tolerance. *)
Theorem readers_agree (fh : list string) (ls : list json) :
  read_voynich_lines json_loads (Some fh) = Ok ls ->
  read_lines_from_jsonl json_loads (Some fh) = Ok ls.
Proof. apply readers_agree_from. Qed.

Lemma rm_line_truthy (lines lines' : list json) (ln : string) :
  Forall (fun t => truthy t = true) lines ->
  rm_line json_loads lines ln = Ok lines' ->
  Forall (fun t => truthy t = true) lines' /\
  (List.length lines' <= S (List.length lines))%nat.
Proof.
  intros Hl. unfold rm_line.
  destruct (String.eqb (strip ln) EmptyString);
    [intros E; inversion E; subst; split; [exact Hl|lia]|].
  destruct (json_loads (strip ln)) as [obj|];
    [|intros E; inversion E; subst; split; [exact Hl|lia]].
  destruct (text_of obj) as [text|e]; simpl; [|discriminate].
  destruct (truthy text) eqn:Et; intros E; inversion E; subst.
  - split; [apply Forall_app; split; [exact Hl|repeat constructor; exact Et]|].
    rewrite length_app. simpl. lia.
  - split; [exact Hl|lia].
Qed.

Lemma rm_loop_truthy (fh : list string) (acc ls : list json) :
  Forall (fun t => truthy t = true) acc ->
  loop_from (rm_line json_loads) fh (Ok acc) = Ok ls ->
  Forall (fun t => truthy t = true) ls /\
  (List.length ls <= List.length acc + List.length fh)%nat.
Proof.
  revert acc. induction fh as [|ln fh IH]; intros acc Hacc H.
  - inversion H; subst. split; [exact Hacc|simpl; lia].
  - unfold loop_from in *. cbn [fold_left bind] in H.
    destruct (rm_line json_loads acc ln) as [acc'|e] eqn:E.
    + destruct (rm_line_truthy _ _ _ Hacc E) as [H1 H2].
      destruct (IH acc' H1 H) as [H3 H4]. split; [exact H3|]. simpl. lia.
    + fold (loop_from (rm_line json_loads) fh (Raise e)) in H.
      rewrite loop_from_raise in H. discriminate.
Qed.

End MoreReaderFacts.

(** Property X21.  [read_lines_from_jsonl] returns the empty list for a
    missing file; and every text it returns is a non-empty (truthy) value,
    at most one per line of the file. *)
Theorem read_lines_from_jsonl_texts (json_loads : string -> option Json.json)
        (file : option (list string)) (ls : list Json.json) :
  Json.read_lines_from_jsonl json_loads file = Json.Ok ls ->
  Forall (fun t => Json.truthy t = true) ls /\
  (List.length ls <= match file with Some fh => List.length fh | None => 0 end)%nat /\
  (file = None -> ls = []).
Proof.
  destruct file as [fh|]; simpl; intros H.
  - destruct (rm_loop_truthy json_loads fh [] ls (Forall_nil _) H) as [H1 H2].
    split; [exact H1|]. split; [exact H2|discriminate].
  - inversion H; subst. repeat split; constructor.
Qed.

Lemma lstrip_head (l : list ascii) :
  Json.lstrip_chars l = [] \/
  exists c r, Json.lstrip_chars l = c :: r /\ Json.is_space c = false.
Proof.
  induction l as [|c l IH]; simpl; [now left|].
  destruct (Json.is_space c) eqn:E; [exact IH|].
  right. exists c, l. now split.
Qed.

Lemma lstrip_nonspace (c : ascii) (l : list ascii) :
  Json.is_space c = false -> Json.lstrip_chars (c :: l) = c :: l.
Proof. intros H. simpl. now rewrite H. Qed.

Lemma lstrip_fixed (l : list ascii) :
  Json.lstrip_chars (Json.lstrip_chars l) = Json.lstrip_chars l.
Proof.
  destruct (lstrip_head l) as [->|[c [r [-> Hc]]]]; [reflexivity|].
  now apply lstrip_nonspace.
Qed.

Lemma lstrip_snoc (m : list ascii) (c : ascii) :
  Json.is_space c = false -> exists m', Json.lstrip_chars (m ++ [c]) = m' ++ [c].
Proof.
  intros Hc. induction m as [|a m IH]; simpl.
  - rewrite Hc. now exists [].
  - destruct (Json.is_space a); [exact IH|]. now exists (a :: m).
Qed.

Lemma strip_idempotent (s : string) : Json.strip (Json.strip s) = Json.strip s.
Proof.
  unfold Json.strip at 1 3. f_equal.
  unfold Json.strip. rewrite list_ascii_of_string_of_list_ascii.
  set (l1 := Json.lstrip_chars (list_ascii_of_string s)).
  set (A := Json.lstrip_chars (rev l1)).
  assert (HA : Json.lstrip_chars (rev A) = rev A).
  { destruct (lstrip_head (list_ascii_of_string s)) as [E|[c [r [E Hc]]]];
      fold l1 in E; unfold A; rewrite E.
    - reflexivity.
    - cbn [rev]. destruct (lstrip_snoc (rev r) c Hc) as [m' ->].
      rewrite rev_app_distr. cbn [rev app]. now apply lstrip_nonspace. }
  rewrite HA, rev_involutive. unfold A. now rewrite lstrip_fixed.
Qed.

(** Property X21 on a file of five lines, of which two carry a text. *)
Lemma read_lines_from_jsonl_texts_witness :
  Json.read_lines_from_jsonl loads_example (Some example_lines)
  = Json.Ok [Json.JStr "daiin"; Json.JStr "qokedy chedy"] /\
  Forall (fun t => Json.truthy t = true)
         [Json.JStr "daiin"; Json.JStr "qokedy chedy"] /\
  (2 <= List.length example_lines)%nat.
Proof.
  assert (E : Json.read_lines_from_jsonl loads_example (Some example_lines)
              = Json.Ok [Json.JStr "daiin"; Json.JStr "qokedy chedy"])
    by reflexivity.
  destruct (read_lines_from_jsonl_texts loads_example (Some example_lines) _ E)
    as [H1 [H2 _]].
  split; [exact E|]. split; [exact H1|exact H2].
Defined.

(** Property X20 on a file without a malformed line: both readers return
    the two texts. *)
Lemma readers_agree_witness :
  Json.read_voynich_lines loads_example (Some example_lines_valid)
  = Json.Ok [Json.JStr "daiin"; Json.JStr "qokedy chedy"] /\
  Json.read_lines_from_jsonl loads_example (Some example_lines_valid)
  = Json.Ok [Json.JStr "daiin"; Json.JStr "qokedy chedy"].
Proof.
  assert (E : Json.read_voynich_lines loads_example (Some example_lines_valid)
              = Json.Ok [Json.JStr "daiin"; Json.JStr "qokedy chedy"])
    by reflexivity.
  split; [exact E|].
  apply (readers_agree loads_example); [|exact E].
  intros ln v. unfold loads_example. cbv zeta. now rewrite strip_idempotent.
Defined.

(** ** The experiment logger and degenerate windows *)

Section SetDefault.
Context {V : Type}.

Lemma setdefault_get (d : dict V) (k k' : string) (v dflt : V) :
  In k' (keys d) -> get (setdefault d k v) k' dflt = get d k' dflt.
Proof.
  intros Hin. unfold setdefault. destruct (mem k (keys d)); [reflexivity|].
  induction d as [|[k0 v0] d IH]; [contradiction|]. simpl in *.
  destruct (String.eqb_spec k' k0) as [_|Hne]; [reflexivity|].
  apply IH. destruct Hin as [E|Hin]; [exfalso; now apply Hne|exact Hin].
Qed.

Lemma setdefault_extends (d : dict V) (k : string) (v : V) :
  exists added, setdefault d k v = d ++ added.
Proof.
  unfold setdefault. destruct (mem k (keys d)).
  - exists []. now rewrite app_nil_r.
  - now exists [(k, v)].
Qed.

Lemma setdefault_has (d : dict V) (k : string) (v : V) :
  In k (keys (setdefault d k v)).
Proof.
  unfold setdefault. destruct (mem k (keys d)) eqn:E.
  - now apply mem_true_iff.
  - unfold keys. rewrite map_app. apply in_or_app. right. now left.
Qed.

Lemma setdefault_keeps (d : dict V) (k k' : string) (v : V) :
  In k' (keys d) -> In k' (keys (setdefault d k v)).
Proof.
  intros H. unfold setdefault. destruct (mem k (keys d)); [exact H|].
  unfold keys. rewrite map_app. apply in_or_app. now left.
Qed.

Lemma setdefault_wf (d : dict V) (k : string) (v : V) :
  wf_dict d -> wf_dict (setdefault d k v).
Proof.
  intros Hwf. unfold setdefault. destruct (mem k (keys d)) eqn:E; [exact Hwf|].
  unfold wf_dict, keys in *. rewrite map_app. apply NoDup_app; [exact Hwf| |].
  - repeat constructor. intros [].
  - intros x Hx Hk. simpl in Hk. destruct Hk as [<-|[]].
    apply mem_true_iff in Hx. unfold keys in E. congruence.
Qed.

Lemma setdefault_present (d : dict V) (k : string) (v : V) :
  In k (keys d) -> setdefault d k v = d.
Proof.
  intros H. unfold setdefault. apply mem_true_iff in H. now rewrite H.
Qed.

End SetDefault.

Section EnrichFacts.
Import ExperimentLogger.

Variables now fresh_id : string.

Lemma extends_refl (record : dict Json.json) :
  wf_dict record -> extends_record record record.
Proof.
  intros H. split; [exact H|]. split; [exists []; now rewrite app_nil_r|].
  split; auto.
Qed.

Lemma extends_setdefault (record out : dict Json.json) (k : string) (v : Json.json) :
  extends_record record out -> extends_record record (setdefault out k v).
Proof.
  intros [Hwf [[added Ea] [Hg Hk]]]. split; [now apply setdefault_wf|]. split.
  - destruct (setdefault_extends out k v) as [more Em]. rewrite Em, Ea.
    exists (added ++ more). now rewrite app_assoc.
  - split.
    + intros k' dflt Hin. rewrite setdefault_get by now apply Hk. now apply Hg.
    + intros k' Hin. now apply setdefault_keeps, Hk.
Qed.

(** Property X22.  [enrich_record] never overwrites: the result starts
    with the entries of the record, unchanged and in order, and a lookup of
    any key of the record gives the value it had; the result always has a
    [timestamp] and a [run_id]. *)
Theorem enrich_record_preserves (record : dict Json.json)
        (run_id input_file model : option string)
        (params : option (dict Json.json)) :
  wf_dict record ->
  wf_dict (enrich_record now fresh_id (Some record) run_id input_file model params) /\
  (exists added,
     enrich_record now fresh_id (Some record) run_id input_file model params
     = record ++ added) /\
  (forall k dflt, In k (keys record) ->
     get (enrich_record now fresh_id (Some record) run_id input_file model params) k dflt
     = get record k dflt) /\
  In "timestamp"
     (keys (enrich_record now fresh_id (Some record) run_id input_file model params)) /\
  In "run_id"
     (keys (enrich_record now fresh_id (Some record) run_id input_file model params)).
Proof.
  intros Hwf. unfold enrich_record.
  set (o1 := setdefault record "timestamp" (Json.JStr now)).
  set (o2 := setdefault o1 "run_id" _).
  set (o3 := match input_file with
             | Some f => if given input_file then setdefault o2 "input_file" (Json.JStr f) else o2
             | None => o2 end).
  set (o4 := match model with
             | Some m => if given model then setdefault o3 "model" (Json.JStr m) else o3
             | None => o3 end).
  set (o5 := match params with
             | Some ((_ :: _) as ps) => setdefault o4 "params" (Json.JDict ps)
             | _ => o4 end).
  assert (E1 : extends_record record o1) by (apply extends_setdefault, extends_refl, Hwf).
  assert (E2 : extends_record record o2) by (apply extends_setdefault, E1).
  assert (E3 : extends_record record o3).
  { unfold o3. destruct input_file as [f|]; [|exact E2].
    destruct (given (Some f)); [apply extends_setdefault|]; exact E2. }
  assert (E4 : extends_record record o4).
  { unfold o4. destruct model as [m|]; [|exact E3].
    destruct (given (Some m)); [apply extends_setdefault|]; exact E3. }
  assert (E5 : extends_record record o5).
  { unfold o5. destruct params as [[|p ps]|]; [exact E4|apply extends_setdefault|]; exact E4. }
  assert (K1 : In "timestamp" (keys o1)) by apply setdefault_has.
  assert (K2 : In "timestamp" (keys o2) /\ In "run_id" (keys o2)).
  { split; [now apply setdefault_keeps|apply setdefault_has]. }
  assert (K3 : In "timestamp" (keys o3) /\ In "run_id" (keys o3)).
  { unfold o3. destruct input_file as [f|]; [|exact K2].
    destruct (given (Some f)); [|exact K2]. split; apply setdefault_keeps; tauto. }
  assert (K4 : In "timestamp" (keys o4) /\ In "run_id" (keys o4)).
  { unfold o4. destruct model as [m|]; [|exact K3].
    destruct (given (Some m)); [|exact K3]. split; apply setdefault_keeps; tauto. }
  assert (K5 : In "timestamp" (keys o5) /\ In "run_id" (keys o5)).
  { unfold o5. destruct params as [[|p ps]|]; try exact K4.
    split; apply setdefault_keeps; tauto. }
  destruct E5 as [W [A [G _]]]. repeat split; try assumption; tauto.
Qed.

End EnrichFacts.

Lemma enrich_record_preserves_witness :
  get (ExperimentLogger.enrich_record "2025-01-01T00:00:00+00:00" "0f3a"
         (Some [("run_id", Json.JStr "r1"); ("corpus", Json.JStr "latin")])
         (Some "r2") (Some "v.jsonl") None None)
      "run_id" Json.JNull
  = Json.JStr "r1".
Proof.
  refine (proj1 (proj2 (proj2 (enrich_record_preserves
            "2025-01-01T00:00:00+00:00" "0f3a"
            [("run_id", Json.JStr "r1"); ("corpus", Json.JStr "latin")]
            (Some "r2") (Some "v.jsonl") None None _))) "run_id" Json.JNull _).
  - unfold wf_dict. simpl. repeat constructor; simpl; intuition discriminate.
  - simpl. now left.
Defined.

Section DegenerateWindows.
Import TemporalEvolution.

Lemma slice_nil_of_bounds {A} (l : list A) (lo hi : Z) :
  (clip (Z.of_nat (List.length l)) hi <= clip (Z.of_nat (List.length l)) lo)%Z ->
  slice l lo hi = [].
Proof.
  intros H. unfold slice.
  replace (Z.to_nat (_ - _)) with 0%nat by lia. reflexivity.
Qed.

Lemma windows_nonpositive (stats : list folio_stat) (w i : Z) :
  (w <= 0)%Z -> (0 <= i)%Z ->
  fst (windows stats w i) = [] \/ snd (windows stats w i) = [].
Proof.
  intros Hw Hi. unfold windows. cbn [fst snd].
  set (len := Z.of_nat (List.length stats)).
  assert (Hlen : (0 <= len)%Z) by (unfold len; lia).
  destruct (Z_lt_le_dec (i + w) 0) as [Hneg|Hpos].
  - right. apply slice_nil_of_bounds. fold len. unfold clip.
    destruct (Z.ltb_spec (i + 2 * w) 0); destruct (Z.ltb_spec (i + w) 0); lia.
  - left. apply slice_nil_of_bounds. fold len. unfold clip.
    destruct (Z.ltb_spec (i + w) 0); destruct (Z.ltb_spec i 0); lia.
Qed.

(** Property X23.  A window size that is zero or negative, or at least
    the number of folios, gives no comparison at all: the analysis returns
    an empty table instead of failing.  (With no folio at all and a
    negative window size the loop body runs on a table without columns;
    that case is left out.) *)
Theorem detect_vocabulary_shifts_degenerate (stats : list folio_stat) (w : Z) :
  stats <> [] \/ (0 <= w)%Z ->
  (w <= 0 \/ Z.of_nat (List.length stats) <= w)%Z ->
  detect_vocabulary_shifts stats w = [].
Proof.
  intros _ H. unfold detect_vocabulary_shifts, window_pairs.
  destruct (Z_le_gt_dec w 0) as [Hw|Hw].
  - assert (E : forall r, (forall i, In i r -> (0 <= i)%Z) ->
                filter kept (map (windows stats w) r) = []).
    { induction r as [|i r IH]; intros Hr; [reflexivity|]. cbn [map filter].
      rewrite IH by (intros j Hj; apply Hr; now right).
      assert (Hk : kept (windows stats w i) = false).
      { unfold kept.
        destruct (windows_nonpositive stats w i Hw (Hr i (or_introl eq_refl)))
          as [E|E]; rewrite E; cbn [window_tokens map List.concat].
        - reflexivity.
        - now destruct (window_tokens (fst (windows stats w i))). }
      now rewrite Hk. }
    rewrite E; [reflexivity|]. intros i Hi. apply In_range in Hi. lia.
  - rewrite range_nonpos by lia. reflexivity.
Qed.

Lemma detect_vocabulary_shifts_degenerate_witness :
  detect_vocabulary_shifts folios_1r_2v (-1) = [] /\
  detect_vocabulary_shifts folios_1r_2v 4 = [].
Proof.
  split.
  - apply detect_vocabulary_shifts_degenerate; [|left; lia].
    left. intros E. apply (f_equal (map folio)) in E.
    unfold folios_1r_2v in E. rewrite stats_folios in E.
    vm_compute in E. discriminate.
  - apply detect_vocabulary_shifts_degenerate; [right; lia|]. right.
    unfold folios_1r_2v. rewrite <- (length_map folio), stats_folios.
    vm_compute. discriminate.
Defined.

End DegenerateWindows.

(** ** Scores and ties of the corpus comparison *)

Section ComparatorScores.
Import CompareCorpora.



Lemma compare_one_scored (v_tokens : list string) (c : corpus_file) :
  exists d,
    compare_one (counter_to_prob (Counter v_tokens))
                (counter_to_prob (bigram_counter v_tokens)) c = Some d /\
    scored v_tokens d c.
Proof.
  unfold compare_one.
  destruct (js_divergence_counters (Counter v_tokens) (Counter (c_tokens c))
              (Counter_frequency_table _) (Counter_frequency_table _))
    as [r1 E1].
  destruct (js_divergence_counters (bigram_counter v_tokens)
              (bigram_counter (c_tokens c))
              (Counter_frequency_table _) (Counter_frequency_table _))
    as [r2 E2].
  rewrite E1, E2. eexists. split; [reflexivity|].
  unfold scored. cbn [corpus embedding_similarity jsd_unigram jsd_bigram].
  split; [reflexivity|]. split; [reflexivity|].
  intros Ec. rewrite Ec in E1, E2.
  rewrite js_divergence_self in E1
    by (apply counter_to_prob_wf, Counter_frequency_table).
  rewrite js_divergence_self in E2
    by (apply counter_to_prob_wf, Counter_frequency_table).
  inversion E1. inversion E2. now split.
Qed.

Lemma collect_results_scored (v_tokens : list string) (files : list corpus_file) :
  exists results,
    collect_results (counter_to_prob (Counter v_tokens))
                    (counter_to_prob (bigram_counter v_tokens)) files
      = Some results /\
    Forall2 (scored v_tokens) results files.
Proof.
  induction files as [|c files IH]; simpl.
  - exists []. split; [reflexivity|constructor].
  - destruct (compare_one_scored v_tokens c) as [d [E Hd]].
    destruct IH as [results [Er Hr]].
    rewrite E, Er. exists (d :: results). split; [reflexivity|].
    now constructor.
Qed.

(** Property X25.  [compare] does not fail in [js_divergence]; it yields
    one result per corpus file, in the order of the files, with the name
    and the embedding similarity of its file; and a corpus with the
    manuscript's own tokens gets 0 for the unigram and for the bigram
    JSD. *)
Theorem compare_scores (v_tokens : list string) (files : list corpus_file) :
  exists out,
    compare v_tokens files = Some out /\
    Forall2 (scored v_tokens) (csv_rows out) files.
Proof.
  unfold compare.
  destruct (collect_results_scored v_tokens files) as [results [E Hr]].
  rewrite E. eexists. split; [reflexivity|exact Hr].
Qed.

(** Sorting by a key keeps the entries of one key value in their order. *)
Lemma insert_by_stable {A} (key : A -> R) (v : R) (x : A) (l : list A) :
  filter (fun d => if Req_dec_T (key d) v then true else false) (insert_by key x l)
  = filter (fun d => if Req_dec_T (key d) v then true else false) (x :: l).
Proof.
  induction l as [|y l IH]; [reflexivity|]. cbn [insert_by].
  destruct (Rle_dec (key x) (key y)) as [Hle|Hgt]; [reflexivity|].
  cbn [filter] in *. rewrite IH.
  destruct (Req_dec_T (key y) v) as [Ey|Ny]; [|reflexivity].
  destruct (Req_dec_T (key x) v) as [Ex|Nx]; [lra|reflexivity].
Qed.

Lemma sorted_by_stable {A} (key : A -> R) (v : R) (l : list A) :
  filter (fun d => if Req_dec_T (key d) v then true else false) (sorted_by key l)
  = filter (fun d => if Req_dec_T (key d) v then true else false) l.
Proof.
  induction l as [|x l IH]; [reflexivity|]. cbn [sorted_by fold_right].
  fold (sorted_by key l). rewrite insert_by_stable. cbn [filter]. now rewrite IH.
Qed.

(** Property X26.  In the table of summary.md, corpora that have the same
    unigram JSD stay in the order of the corpus directory. *)
Theorem compare_ranking_ties (v_tokens : list string) (files : list corpus_file)
        (out : outputs) (v : R) :
  compare v_tokens files = Some out ->
  filter (fun d => if Req_dec_T (jsd_unigram d) v then true else false) (md_rows out)
  = filter (fun d => if Req_dec_T (jsd_unigram d) v then true else false) (csv_rows out).
Proof.
  unfold compare. destruct (collect_results _ _ files) as [results|]; [|discriminate].
  intros E. inversion E; subst. cbn [md_rows csv_rows]. apply sorted_by_stable.
Qed.

Lemma compare_ranking_ties_witness :
  exists out,
    compare ["daiin"] example_files = Some out /\
    filter (fun d => if Req_dec_T (jsd_unigram d) 0 then true else false) (md_rows out)
    = filter (fun d => if Req_dec_T (jsd_unigram d) 0 then true else false)
             (csv_rows out).
Proof.
  destruct (collect_results_scored ["daiin"] example_files) as [results [E _]].
  assert (E' : compare ["daiin"] example_files
               = Some {| csv_rows := results;
                         md_rows := sorted_by jsd_unigram results |})
    by (unfold compare; rewrite E; reflexivity).
  eexists. split; [exact E'|].
  exact (compare_ranking_ties ["daiin"] example_files _ 0 E').
Defined.

End ComparatorScores.

(** ** The language comparison report *)

Section LanguageReport.
Import CompareLanguages.

Lemma split_spaces_not_nil (l : list ascii) : split_spaces l <> [].
Proof.
  destruct l as [|c l]; simpl; [discriminate|].
  destruct (Ascii.eqb c space); [discriminate|].
  destruct (split_spaces l); discriminate.
Qed.












End LanguageReport.

(** ** Units of the shift divergence and window labels *)

Section ShiftDivergence.
Import TemporalEvolution.


















End ShiftDivergence.
